(** * AI-ChatBot: session store, history window and chat-turn handlers

    A shallow embedding of the chat service (Express routes over a SQLite
    database, calling the Groq completion API): the two tables created at
    start-up, the five store functions
    ([getChatSessions], [getConversationHistory], [saveMessage],
    [createNewChatSession], [deleteChatSession]) and the HTTP handlers that
    call them.

    Modelling decisions, all stated once here:
    - a JS string is the [string] of the UTF-8 bytes that the SQLite driver
      binds for it and that the [TEXT] column holds: one to four bytes for
      each character, and the three bytes of U+FFFD for a surrogate left
      without its pair (so two strings that differ only in such surrogates
      are taken for one).  Equality, [includes] and the concatenations the
      code makes are those of the bytes; [.length] and [.substring(0, n)]
      count UTF-16 code units and are [js_length] and [js_substring_0];
    - a table is the list of its rows in rowid order;
    - [CURRENT_TIMESTAMP] and [datetime('now')] read the field [clock] of
      the world, a count of whole seconds; time passes by [tick] only, so
      it never runs backwards, and two statements may well read the same
      second;
    - [ORDER BY] is a stable sort of the table scan: rows that agree on the
      sort key keep their rowid order, which is what SQLite's sorter
      yields;
    - the connection never issues [PRAGMA foreign_keys = ON], so the
      [FOREIGN KEY] clause of [messages] is declared and not enforced;
    - no statement is wrapped in [BEGIN]/[COMMIT]: every statement commits
      on its own, and a statement that fails changes nothing;
    - a statement run without a callback has nobody to report a failure
      to: the driver emits the error on the statement object, no listener
      takes it, and the process exits; what was queued behind it does not
      run, the promise is never settled and the request gets no answer.
      The database file stays, and the process is taken to be started
      again for the next request;
    - storage faults come from the environment: the world carries a script
      [faults], and every statement handed to the driver consumes the head
      of it ([None], or an exhausted script, means the statement runs). *)

From Stdlib Require Import String Ascii List Arith Bool Lia.
From Stdlib Require Import Sorting.Sorted Sorting.Permutation.
Import ListNotations.
Open Scope string_scope.
Open Scope list_scope.

Set Implicit Arguments.

Definition Time := nat.
Definition Error := string.

(** ** Rows *)

(** [chat_sessions (id TEXT PRIMARY KEY, title TEXT, created_at, updated_at)] *)
Module Session.
Record row := mk {
  id : string;
  title : string;
  created_at : Time;
  updated_at : Time
}.
End Session.

(** [messages (id INTEGER PRIMARY KEY AUTOINCREMENT, session_id, role,
    content, timestamp)] *)
Module Message.
Record row := mk {
  id : nat;
  session_id : string;
  role : string;
  content : string;
  timestamp : Time
}.
End Message.

(** What [SELECT role, content] returns, and what is sent to the
    completion API. *)
Module Chat.
Record msg := mk {
  role : string;
  content : string
}.
End Chat.

(** ** The world: database file, clock and fault script *)

Record World := mkWorld {
  chat_sessions : list Session.row;
  messages : list Message.row;
  sqlite_sequence : nat;          (* last AUTOINCREMENT id handed out *)
  clock : Time;
  faults : list (option Error)
}.

(** The database after the two [CREATE TABLE IF NOT EXISTS] on a fresh file. *)
Definition fresh : World := mkWorld [] [] 0 0 [].

Definition set_chat_sessions (l : list Session.row) (w : World) : World :=
  mkWorld l (messages w) (sqlite_sequence w) (clock w) (faults w).

Definition set_faults (fs : list (option Error)) (w : World) : World :=
  mkWorld (chat_sessions w) (messages w) (sqlite_sequence w) (clock w) fs.

Definition tick (dt : nat) (w : World) : World :=
  mkWorld (chat_sessions w) (messages w) (sqlite_sequence w) (clock w + dt)
          (faults w).

(** ** Promises *)

Inductive outcome (A : Type) : Type :=
| Resolved (a : A)
| Rejected (e : Error)
| Exited.                          (* the process went down, unsettled *)
Arguments Resolved {A} a.
Arguments Rejected {A} e.
Arguments Exited {A}.

Definition Async (A : Type) : Type := World -> World * outcome A.

Definition ret {A} (a : A) : Async A := fun w => (w, Resolved a).

(** [await]: a rejection is thrown past the rest of the block. *)
Definition bind {A B} (m : Async A) (k : A -> Async B) : Async B :=
  fun w =>
    match m w with
    | (w1, Resolved a) => k a w1
    | (w1, Rejected e) => (w1, Rejected e)
    | (w1, Exited) => (w1, Exited)
    end.

Declare Scope async_scope.
Delimit Scope async_scope with async.
Notation "x <- m ;; k" := (bind m (fun x => k))
  (at level 61, m at next level, right associativity) : async_scope.
Notation "m ;; k" := (bind m (fun _ => k))
  (at level 61, right associativity) : async_scope.
Open Scope async_scope.

(** ** The driver *)

Definition next_fault (w : World) : option Error * World :=
  match faults w with
  | [] => (None, w)
  | f :: fs => (f, set_faults fs w)
  end.

(** A statement run with a callback [(err, result) => ...] that rejects on
    [err] and resolves with the result otherwise. *)
Definition db_call {A} (stmt : World -> World * outcome A) : Async A :=
  fun w =>
    match next_fault w with
    | (Some e, w1) => (w1, Rejected e)
    | (None, w1) => stmt w1
    end.

(** [db.run(sql, params)] with no callback: the statement is queued and
    run; its result goes nowhere, and its failure takes the process down. *)
Definition db_run_bare (stmt : World -> World * outcome unit) : Async unit :=
  fun w =>
    match next_fault w with
    | (Some _, w1) => (w1, Exited)
    | (None, w1) => (fst (stmt w1), Resolved tt)
    end.

(** ** SQL statements *)

Definition stmt_ok (f : World -> World) : World -> World * outcome unit :=
  fun w => (f w, Resolved tt).

Definition has_session (sessionId : string) (w : World) : bool :=
  existsb (fun r => String.eqb (Session.id r) sessionId) (chat_sessions w).

(** [INSERT OR REPLACE INTO chat_sessions (id, title, updated_at)
     VALUES (?, ?, datetime('now'))]: the row that holds the key is deleted
    and a whole new row is inserted; [created_at] is not listed and takes
    its default, [CURRENT_TIMESTAMP]. *)
Definition sql_insert_or_replace_session (sessionId title : string)
  : World -> World :=
  fun w =>
    set_chat_sessions
      (filter (fun r => negb (String.eqb (Session.id r) sessionId))
              (chat_sessions w)
       ++ [Session.mk sessionId title (clock w) (clock w)]) w.

(** [UPDATE chat_sessions SET updated_at = datetime('now') WHERE id = ?] *)
Definition sql_update_updated_at (sessionId : string) : World -> World :=
  fun w =>
    set_chat_sessions
      (map (fun r =>
              if String.eqb (Session.id r) sessionId
              then Session.mk (Session.id r) (Session.title r)
                              (Session.created_at r) (clock w)
              else r)
           (chat_sessions w)) w.

(** [INSERT INTO messages (session_id, role, content) VALUES (?, ?, ?)] *)
Definition sql_insert_message (sessionId role content : string)
  : World -> World :=
  fun w =>
    mkWorld (chat_sessions w)
            (messages w
             ++ [Message.mk (S (sqlite_sequence w)) sessionId role content
                            (clock w)])
            (S (sqlite_sequence w)) (clock w) (faults w).

(** [INSERT INTO chat_sessions (id, title) VALUES (?, ?)]: the primary key
    rejects an id that is already there. *)
Definition sql_insert_session (sessionId title : string)
  : World -> World * outcome unit :=
  fun w =>
    if has_session sessionId w
    then (w, Rejected "SQLITE_CONSTRAINT: UNIQUE constraint failed: chat_sessions.id")
    else (set_chat_sessions
            (chat_sessions w ++ [Session.mk sessionId title (clock w) (clock w)])
            w,
          Resolved tt).

(** [DELETE FROM messages WHERE session_id = ?] *)
Definition sql_delete_messages (sessionId : string) : World -> World :=
  fun w =>
    mkWorld (chat_sessions w)
            (filter (fun m => negb (String.eqb (Message.session_id m) sessionId))
                    (messages w))
            (sqlite_sequence w) (clock w) (faults w).

(** [DELETE FROM chat_sessions WHERE id = ?] *)
Definition sql_delete_session (sessionId : string) : World -> World :=
  fun w =>
    set_chat_sessions
      (filter (fun r => negb (String.eqb (Session.id r) sessionId))
              (chat_sessions w)) w.

(** ** Queries *)

Section OrderBy.
Variable A : Type.
Variable before : A -> A -> bool.

(** [x] comes from an earlier row than everything in [l]: it goes in
    front of the first row it may precede, so ties keep scan order. *)
Fixpoint place (x : A) (l : list A) : list A :=
  match l with
  | [] => [x]
  | y :: l' => if before x y then x :: l else y :: place x l'
  end.

Fixpoint order_by (l : list A) : list A :=
  match l with
  | [] => []
  | x :: l' => place x (order_by l')
  end.
End OrderBy.

(** [SELECT id, title, created_at, updated_at FROM chat_sessions
     ORDER BY updated_at DESC] *)
Definition select_sessions (w : World) : list Session.row :=
  order_by (fun a b => Nat.leb (Session.updated_at b) (Session.updated_at a))
           (chat_sessions w).

(** [SELECT role, content FROM messages WHERE session_id = ?
     ORDER BY timestamp ASC] *)
Definition select_history (sessionId : string) (w : World) : list Chat.msg :=
  map (fun m => Chat.mk (Message.role m) (Message.content m))
      (order_by (fun a b => Nat.leb (Message.timestamp a) (Message.timestamp b))
                (filter (fun m => String.eqb (Message.session_id m) sessionId)
                        (messages w))).

(** [SELECT title FROM chat_sessions WHERE id = ?] through [db.get]: the
    first row, or [undefined]. *)
Definition select_title (sessionId : string) (w : World) : option string :=
  match filter (fun r => String.eqb (Session.id r) sessionId)
               (chat_sessions w) with
  | [] => None
  | r :: _ => Some (Session.title r)
  end.

(** ** Strings as JavaScript counts them *)

(** A byte [10xxxxxx] continues the character begun before it. *)
Definition is_continuation (b : ascii) : bool :=
  Nat.leb 128 (nat_of_ascii b) && Nat.ltb (nat_of_ascii b) 192.

(** UTF-16 code units of the character a byte begins: two for a character
    of four bytes (a surrogate pair), one for any other, none for a byte
    that begins nothing. *)
Definition unit_count (b : ascii) : nat :=
  if is_continuation b then 0
  else if Nat.leb 240 (nat_of_ascii b) then 2
  else 1.

(** [s.length] *)
Fixpoint js_length (s : string) : nat :=
  match s with
  | EmptyString => 0
  | String b s' => unit_count b + js_length s'
  end.

(** U+FFFD, which the driver binds for a surrogate without its pair. *)
Definition replacement : string :=
  String (ascii_of_nat 239)
    (String (ascii_of_nat 191) (String (ascii_of_nat 189) EmptyString)).

(** [s.substring(0, n)], as bound: the characters that fit in [n] code
    units; when one unit is left and the next character takes two, the cut
    leaves the first surrogate alone, which is bound as U+FFFD. *)
Fixpoint js_substring_0 (n : nat) (s : string) : string :=
  match s with
  | EmptyString => EmptyString
  | String b s' =>
      if is_continuation b then String b (js_substring_0 n s')
      else if Nat.leb (unit_count b) n
           then String b (js_substring_0 (n - unit_count b) s')
           else if Nat.eqb n 0 then EmptyString else replacement
  end.

(** ** The store functions *)

Definition getChatSessions : Async (list Session.row) :=
  db_call (fun w => (w, Resolved (select_sessions w))).

Definition getConversationHistory (sessionId : string)
  : Async (list Chat.msg) :=
  db_call (fun w => (w, Resolved (select_history sessionId w))).

(** [title] is held as the driver binds it: when the cut at 30 code units
    falls inside a surrogate pair, with U+FFFD for the half that is left. *)
Definition saveMessage (sessionId role content : string)
                       (isFirstMessage : bool) : Async unit :=
  (if isFirstMessage
   then
     let title :=
       if Nat.ltb 30 (js_length content)
       then String.append (js_substring_0 30 content) "..."
       else content in
     db_run_bare (stmt_ok (sql_insert_or_replace_session sessionId title))
   else
     db_run_bare (stmt_ok (sql_update_updated_at sessionId))) ;;
  db_call (stmt_ok (sql_insert_message sessionId role content)).

(** [uuid] is the value [uuidv4()] returned for this call. *)
Definition createNewChatSession (uuid : string) : Async string :=
  let sessionId := uuid in
  let title := "New Chat" in
  db_call (sql_insert_session sessionId title) ;;
  ret sessionId.

Definition deleteChatSession (sessionId : string) : Async unit :=
  db_run_bare (stmt_ok (sql_delete_messages sessionId)) ;;
  db_call (stmt_ok (sql_delete_session sessionId)).

(** ** The history window *)

(** [array.slice(-n)]: the last [n] elements, the whole array when it has
    no more than [n]. *)
Definition slice_last {A} (n : nat) (l : list A) : list A :=
  skipn (length l - n) l.

Definition system_message : Chat.msg :=
  Chat.mk "system"
    "You are a helpful, detailed, and enthusiastic AI assistant. Provide comprehensive and thorough responses while maintaining natural conversation flow.".

Definition window (history : list Chat.msg) : list Chat.msg :=
  let recentHistory := slice_last 15 history in
  system_message
    :: map (fun msg => Chat.mk (Chat.role msg) (Chat.content msg))
           recentHistory.

(** ** HTTP responses *)

Inductive Body : Type :=
| error_body (error : string)
| sessions_body (sessions : list Session.row)
| messages_body (msgs : list Chat.msg)
| new_chat_body (sessionId title : string)
| reply_body (response sessionId : string) (tokensUsed : nat)
| message_body (message : string)
| attachment_body (filename text : string)
| connection_closed.

Record Response := mkResponse {
  status : nat;
  body : Body
}.

(** [res.json(...)] answers 200 unless [res.status] was called first. *)
Definition json (b : Body) : Response := mkResponse 200 b.

(** What the client gets when the process exits under its request: the
    connection closes with no status line, for which 0 stands. *)
Definition no_answer : Response := mkResponse 0 connection_closed.

(** [try { ... res.json(ok) } catch (error) { handler }] *)
Definition try_catch {A} (block : Async A) (ok : A -> Response)
                     (handler : Error -> Response)
  : World -> World * Response :=
  fun w =>
    match block w with
    | (w1, Resolved a) => (w1, ok a)
    | (w1, Rejected e) => (w1, handler e)
    | (w1, Exited) => (w1, no_answer)
    end.

(** ** The completion API *)

(** What [groq.chat.completions.create] hands back: a completion, of which
    the handler reads [choices[0].message.content] and
    [usage.total_tokens], or a thrown error with its [message]. *)
Inductive completion : Type :=
| Completion (content : string) (total_tokens : nat)
| Failure (message : string).

(** [hay.includes(needle)] *)
Fixpoint includes (needle hay : string) : bool :=
  if prefix needle hay then true
  else match hay with
       | EmptyString => false
       | String _ rest => includes needle rest
       end.

(** The [catch] block of the message route. *)
Definition on_error (message : Error) : Response :=
  if includes "rate limit" message then
    mkResponse 429
      (error_body "Rate limit exceeded. Please wait a moment and try again.")
  else if includes "quota" message then
    mkResponse 429
      (error_body "API quota exceeded. Please check your Groq account.")
  else
    mkResponse 500 (error_body (String.append "AI service error: " message)).

(** ** Routes *)

(** [GET /api/chats] *)
Definition get_chats : World -> World * Response :=
  try_catch getChatSessions
    (fun sessions => json (sessions_body sessions))
    (fun _ => mkResponse 500 (error_body "Failed to load chats")).

(** [GET /api/chats/:sessionId] *)
Definition get_chat (sessionId : string) : World -> World * Response :=
  try_catch (getConversationHistory sessionId)
    (fun msgs => json (messages_body msgs))
    (fun _ => mkResponse 500 (error_body "Failed to load chat")).

(** [POST /api/chats/new] *)
Definition post_new (uuid : string) : World -> World * Response :=
  try_catch (createNewChatSession uuid)
    (fun sessionId => json (new_chat_body sessionId "New Chat"))
    (fun _ => mkResponse 500 (error_body "Failed to create chat")).

(** [DELETE /api/chats/:sessionId] *)
Definition delete_chat (sessionId : string) : World -> World * Response :=
  try_catch (deleteChatSession sessionId)
    (fun _ => json (message_body "Chat deleted successfully"))
    (fun _ => mkResponse 500 (error_body "Failed to delete chat")).

(** [POST /api/chats/:sessionId/message].  The body field [message] is
    [None] when the JSON body has no such field.  The route stops at the
    call of the completion API, the one place where it waits for something
    outside the process; other requests are served meanwhile.  It is
    therefore given in two halves: up to the call, and from its result. *)
Inductive pending : Type :=
| Respond (r : Response)
| AwaitCompletion (msgs : list Chat.msg).

Definition post_message_request (sessionId : string) (message : option string)
  : World -> World * pending :=
  fun w =>
    match message with
    | None | Some EmptyString =>                      (* [if (!message)] *)
        (w, Respond (mkResponse 400 (error_body "Message is required")))
    | Some text =>
        match
          (existingMessages <- getConversationHistory sessionId ;;
           let isFirstMessage := Nat.eqb (length existingMessages) 0 in
           saveMessage sessionId "user" text isFirstMessage ;;
           history <- getConversationHistory sessionId ;;
           ret (window history)) w
        with
        | (w1, Resolved msgs) => (w1, AwaitCompletion msgs)
        | (w1, Rejected e) => (w1, Respond (on_error e))
        | (w1, Exited) => (w1, Respond no_answer)
        end
    end.

Definition post_message_resume (sessionId : string) (c : completion)
  : World -> World * Response :=
  match c with
  | Failure message => fun w => (w, on_error message)
  | Completion aiResponse tokensUsed =>
      try_catch (saveMessage sessionId "assistant" aiResponse false)
        (fun _ => json (reply_body aiResponse sessionId tokensUsed))
        on_error
  end.

(** The whole route when nothing else is served in between: [groq] is the
    completion API and [latency] the seconds its answer takes. *)
Definition post_message (groq : list Chat.msg -> completion) (latency : nat)
                        (sessionId : string) (message : option string)
  : World -> World * Response :=
  fun w =>
    match post_message_request sessionId message w with
    | (w1, Respond r) => (w1, r)
    | (w1, AwaitCompletion msgs) =>
        post_message_resume sessionId (groq msgs) (tick latency w1)
    end.

(** [GET /api/chats/:sessionId/export] *)
Definition nl : string := String (ascii_of_nat 10) EmptyString.

(** The title fetch: the callback is [(err, row) => resolve(row)], so an
    error resolves with [undefined], as a missing row does. *)
Definition fetch_title (sessionId : string) : Async (option string) :=
  fun w =>
    match db_call (fun w0 => (w0, Resolved (select_title sessionId w0))) w with
    | (w1, Resolved row) => (w1, Resolved row)
    | (w1, Rejected _) => (w1, Resolved None)
    | (w1, Exited) => (w1, Exited)
    end.

Definition export_line (msg : Chat.msg) : string :=
  let role :=
    if String.eqb (Chat.role msg) "user" then "You" else "AI Assistant" in
  String.concat "" [role; ": "; Chat.content msg; nl; nl].

(** [localeString] is [new Date().toLocaleString()] at the time of the
    request. *)
Definition export_text (localeString : string) (session : option string)
                       (msgs : list Chat.msg) : string :=
  let title :=                           (* [session?.title || 'Untitled'] *)
    match session with
    | None | Some EmptyString => "Untitled"
    | Some t => t
    end in
  String.concat ""
    (["AI Chat Export"; nl;
      "Title: "; title; nl;
      "Exported: "; localeString; nl;
      "========================================"; nl; nl]
     ++ map export_line msgs).

(** What [res.setHeader] lets through in a header value: a tab, and the code
    units from 0x20 to 0xFF but 0x7F.  In UTF-8 the units from 0x80 to 0xFF
    are the two-byte characters led by 0xC2 or 0xC3, and every unit above
    0xFF begins with a byte from 0xC4 up. *)
Definition header_byte_ok (b : ascii) : bool :=
  Nat.eqb (nat_of_ascii b) 9
  || (Nat.leb 32 (nat_of_ascii b) && negb (Nat.eqb (nat_of_ascii b) 127)
      && Nat.ltb (nat_of_ascii b) 196).

Fixpoint header_value_ok (value : string) : bool :=
  match value with
  | EmptyString => true
  | String b rest => header_byte_ok b && header_value_ok rest
  end.

(** [res.setHeader(name, value)] throws on a value it does not let through. *)
Definition setHeader (name value : string) : Async unit :=
  fun w =>
    if header_value_ok value
    then (w, Resolved tt)
    else (w, Rejected
               (String.concat ""
                  ["Invalid character in header content ["; name; "]"])).

Definition get_export (localeString sessionId : string)
  : World -> World * Response :=
  try_catch
    (msgs <- getConversationHistory sessionId ;;
     session <- fetch_title sessionId ;;
     let exportText := export_text localeString session msgs in
     setHeader "Content-Type" "text/plain" ;;
     setHeader "Content-Disposition"
       (String.concat "" ["attachment; filename=chat-"; sessionId; ".txt"]) ;;
     ret exportText)
    (fun exportText =>                                   (* [res.send] *)
       mkResponse 200
         (attachment_body (String.concat "" ["chat-"; sessionId; ".txt"])
                          exportText))
    (fun _ => mkResponse 500 (error_body "Export failed")).

(** * Vocabulary of the properties *)

(** The content of the database file, without clock and fault script. *)
Definition db (w : World)
  : list Session.row * list Message.row * nat :=
  (chat_sessions w, messages w, sqlite_sequence w).

Definition session_ids (w : World) : list string :=
  map Session.id (chat_sessions w).

(** The session write of [saveMessage], whichever branch is taken. *)
Definition session_write (sessionId content : string) (isFirstMessage : bool)
  : World -> World :=
  if isFirstMessage
  then sql_insert_or_replace_session sessionId
         (if Nat.ltb 30 (js_length content)
          then String.append (js_substring_0 30 content) "..."
          else content)
  else sql_update_updated_at sessionId.

(** The [n]-th entry of the fault script; an exhausted script has no fault. *)
Definition fault_at (n : nat) (w : World) : option Error :=
  nth n (faults w) None.

Definition unless_fault (f : option Error) (write : World -> World)
  : World -> World :=
  match f with
  | None => write
  | Some _ => fun w => w
  end.

Definition earlier (a b : Message.row) : Prop :=
  Message.timestamp a <= Message.timestamp b.

(** Rows were inserted as time went by: timestamps do not decrease along
    the rowids and none lies in the future.  The store functions and the
    passing of time keep it so ([chronological_step],
    [chronological_create], [chronological_delete]). *)
Definition chronological (w : World) : Prop :=
  StronglySorted earlier (messages w)
  /\ Forall (fun m => Message.timestamp m <= clock w) (messages w).

(** What a client does to the store between two reads of a history. *)
Inductive event : Type :=
| Tick (dt : nat)
| Save (sessionId role content : string) (isFirstMessage : bool).

Definition step (w : World) (e : event) : World :=
  match e with
  | Tick dt => tick dt w
  | Save sessionId role content isFirstMessage =>
      fst (saveMessage sessionId role content isFirstMessage w)
  end.

Definition run (evs : list event) (w : World) : World :=
  fold_left step evs w.

(** The messages the trace appends to one session, in call order. *)
Fixpoint appended (sessionId : string) (evs : list event) : list Chat.msg :=
  match evs with
  | [] => []
  | Tick _ :: evs' => appended sessionId evs'
  | Save sid role content _ :: evs' =>
      if String.eqb sid sessionId
      then Chat.mk role content :: appended sessionId evs'
      else appended sessionId evs'
  end.

(** Both writes of a [saveMessage] call or neither: what a transaction
    around the two statements would guarantee. *)
Definition both_or_neither (sessionId role content : string)
                           (isFirstMessage : bool) (w : World) : Prop :=
  let w' := fst (saveMessage sessionId role content isFirstMessage w) in
  db w' = db w
  \/ db w' = db (sql_insert_message sessionId role content
                   (session_write sessionId content isFirstMessage w)).

(** Every message row has its session row. *)
Definition owned (w : World) : bool :=
  forallb (fun m => has_session (Message.session_id m) w) (messages w).

Definition is_system (m : Chat.msg) : bool :=
  String.eqb (Chat.role m) "system".

(** A completion API that is down. *)
Definition failing (groq : list Chat.msg -> completion) : Prop :=
  forall msgs, exists message, groq msgs = Failure message.

(** The only session id [w'] may hold beyond those of [w] is [sessionId]. *)
Definition adds_at_most (sessionId : string) (w w' : World) : Prop :=
  incl (session_ids w') (sessionId :: session_ids w).

(** The title the first-message branch of [saveMessage] gives. *)
Definition derived_title (content : string) : string :=
  if Nat.leb (js_length content) 30
  then content
  else String.append (js_substring_0 30 content) "...".

(** All bytes below 0x80: one byte, one character, one code unit. *)
Fixpoint is_ascii (s : string) : bool :=
  match s with
  | EmptyString => true
  | String b s' => Nat.ltb (nat_of_ascii b) 128 && is_ascii s'
  end.

(** ** Sample inputs *)

(** A completion API with one canned answer. *)
Definition canned (c : completion) : list Chat.msg -> completion :=
  fun _ => c.

(** Appends to two sessions, interleaved. *)
Definition two_sessions : list event :=
  [Save "a" "user" "one" true; Save "b" "user" "uno" true;
   Save "a" "assistant" "two" false; Tick 3;
   Save "b" "assistant" "dos" false; Save "a" "user" "three" false].

(** [n] messages "A", "B", ... of alternating roles. *)
Definition lettered (n : nat) : list Chat.msg :=
  map (fun i => Chat.mk (if Nat.even i then "user" else "assistant")
                        (String (ascii_of_nat (65 + i)) EmptyString))
      (seq 0 n).

(** U+1F600 in UTF-8: four bytes, a surrogate pair in UTF-16. *)
Definition grinning_face : string :=
  String (ascii_of_nat 240)
    (String (ascii_of_nat 159)
       (String (ascii_of_nat 152) (String (ascii_of_nat 128) EmptyString))).

Definition twenty_nine_letters : string := "aaaaaaaaaaaaaaaaaaaaaaaaaaaaa".

(** 29 letters, the emoji across units 30 and 31, three more letters. *)
Definition split_message : string :=
  String.concat "" [twenty_nine_letters; grinning_face; "bcd"].

(** A session created by [POST /api/chats/new], five seconds ago. *)
Definition new_chat : World := tick 5 (fst (post_new "s" fresh)).

(** The same, with the disk filling up during the second statement to come. *)
Definition new_chat_disk_full : World :=
  set_faults [None; Some "SQLITE_FULL: database or disk is full"] new_chat.

(** A session titled "Hi" by its first message. *)
Definition titled_chat : World :=
  fst (post_message (canned (Failure "fetch failed")) 0 "s" (Some "Hi")
                    new_chat).

(** The same, with an I/O error waiting for the second statement to come. *)
Definition titled_chat_io_error : World :=
  set_faults [None; Some "SQLITE_IOERR: disk I/O error"] titled_chat.

(** A chat deleted while its first message waits for the completion API:
    [POST new], [POST message] up to the API call, [DELETE], then the
    answer arrives. *)
Definition deleted_while_waiting : World :=
  let w1 := fst (post_message_request "s" (Some "hi") new_chat) in
  let w2 := fst (delete_chat "s" (tick 1 w1)) in
  fst (post_message_resume "s" (Completion "yo" 7) (tick 1 w2)).

(** The chat titled "Hi", with the database locked for the next statement. *)
Definition titled_chat_locked : World :=
  set_faults [Some "SQLITE_BUSY: database is locked"] titled_chat.

(** Chat "a" created one second before chat "b", a second ago. *)
Definition two_chats : World :=
  tick 1 (fst (post_new "b" (tick 1 (fst (post_new "a" fresh))))).

(** ** Requests *)

(** What reaches the service: the six routes, time passing, and the
    environment arming storage faults for the statements to come.  The chat
    turn comes whole ([PostMessage]) and in its two halves, so that other
    requests may fall between them; the second half is accepted anywhere,
    with any answer, which covers every interleaving the server can see
    and more.  A request under which the process exits gets no answer, and
    the next one finds the process started again on the same database. *)
Inductive request : Type :=
| GetChats
| GetChat (sessionId : string)
| PostNew (uuid : string)
| PostMessage (groq : list Chat.msg -> completion) (latency : nat)
              (sessionId : string) (message : option string)
| PostMessageRequest (sessionId : string) (message : option string)
| PostMessageResume (sessionId : string) (c : completion)
| DeleteChat (sessionId : string)
| GetExport (localeString sessionId : string)
| Elapse (dt : nat)
| Arm (fs : list (option Error)).

Definition serve (w : World) (r : request) : World :=
  match r with
  | GetChats => fst (get_chats w)
  | GetChat sessionId => fst (get_chat sessionId w)
  | PostNew uuid => fst (post_new uuid w)
  | PostMessage groq latency sessionId message =>
      fst (post_message groq latency sessionId message w)
  | PostMessageRequest sessionId message =>
      fst (post_message_request sessionId message w)
  | PostMessageResume sessionId c => fst (post_message_resume sessionId c w)
  | DeleteChat sessionId => fst (delete_chat sessionId w)
  | GetExport localeString sessionId =>
      fst (get_export localeString sessionId w)
  | Elapse dt => tick dt w
  | Arm fs => set_faults fs w
  end.

Definition serve_all (rs : list request) (w : World) : World :=
  fold_left serve rs w.

(** ** Primitive writes *)

(** The statements the routes issue, and the two moves of the environment. *)
Inductive action : Type :=
| Pop (fs : list (option Error))
| Wait (dt : nat)
| FirstMessage (sessionId content : string)
| Touch (sessionId : string)
| InsertMessage (sessionId role content : string)
| NewSession (uuid : string)
| DeleteMessages (sessionId : string)
| DeleteSession (sessionId : string).

Definition act (w : World) (a : action) : World :=
  match a with
  | Pop fs => set_faults fs w
  | Wait dt => tick dt w
  | FirstMessage sessionId content => session_write sessionId content true w
  | Touch sessionId => sql_update_updated_at sessionId w
  | InsertMessage sessionId role content =>
      sql_insert_message sessionId role content w
  | NewSession uuid => fst (sql_insert_session uuid "New Chat" w)
  | DeleteMessages sessionId => sql_delete_messages sessionId w
  | DeleteSession sessionId => sql_delete_session sessionId w
  end.

Definition play (l : list action) (w : World) : World :=
  fold_left act l w.

(** What the routes store: the user's text, never empty, and the answer of
    the completion API. *)
Definition stored_ok (role content : string) : Prop :=
  (role = "user" /\ content <> "") \/ role = "assistant".

Definition proper (a : action) : Prop :=
  match a with
  | FirstMessage _ content => content <> ""
  | InsertMessage _ role content => stored_ok role content
  | _ => True
  end.

(** The session an action writes to, if any. *)
Definition target (a : action) : option string :=
  match a with
  | Pop _ | Wait _ => None
  | FirstMessage s _ | Touch s | InsertMessage s _ _ | NewSession s
  | DeleteMessages s | DeleteSession s => Some s
  end.

Definition on_session (sessionId : string) (a : action) : Prop :=
  proper a /\ (target a = None \/ target a = Some sessionId).

(** A computation that comes down to proper actions on one session. *)
Definition scripted {X} (sessionId : string) (m : World -> World * X)
  : Prop :=
  forall w, exists l, Forall (on_session sessionId) l /\ fst (m w) = play l w.

(** ** Invariants of the store *)

Definition unique_ids (w : World) : Prop := NoDup (session_ids w).

Definition session_times (w : World) : Prop :=
  Forall (fun r => Session.created_at r <= Session.updated_at r
                   /\ Session.updated_at r <= clock w)
         (chat_sessions w).

Definition message_ids (w : World) : Prop :=
  StronglySorted (fun a b => Message.id a < Message.id b) (messages w)
  /\ Forall (fun m => 1 <= Message.id m <= sqlite_sequence w) (messages w).

(** From [w] to [w'] the sequence counter has not fallen, and every row of
    [w'] whose id was within the counter of [w] is a row [w] had: an id
    handed out by then has not been given to another row since. *)
Definition never_reissued (w w' : World) : Prop :=
  sqlite_sequence w <= sqlite_sequence w'
  /\ forall m, In m (messages w') -> Message.id m <= sqlite_sequence w ->
               In m (messages w).

Definition stored_roles (w : World) : Prop :=
  Forall (fun m => stored_ok (Message.role m) (Message.content m))
         (messages w).

Definition titles_bounded (w : World) : Prop :=
  Forall (fun r => Session.title r <> ""
                   /\ js_length (Session.title r) <= 33)
         (chat_sessions w).

(** ** Other vocabulary *)

(** The session [other] is as it was: same row, same history. *)
Definition untouched (other : string) (w w' : World) : Prop :=
  select_history other w' = select_history other w
  /\ filter (fun r => String.eqb (Session.id r) other) (chat_sessions w') =
     filter (fun r => String.eqb (Session.id r) other) (chat_sessions w).

(** Id, title and creation time of every session row, in rowid order. *)
Definition identities (w : World) : list (string * string * Time) :=
  map (fun r => (Session.id r, Session.title r, Session.created_at r))
      (chat_sessions w).

Definition contains (needle hay : string) : Prop :=
  exists pre post, hay = String.append pre (String.append needle post).

Definition newest_first (a b : Session.row) : Prop :=
  Session.updated_at b <= Session.updated_at a.

(** * Properties *)

(** ** Sorting *)

Section OrderByFacts.
Variable A : Type.
Variable before : A -> A -> bool.
Variable R : A -> A -> Prop.
Hypothesis before_R : forall a b, R a b -> before a b = true.

Lemma order_by_sorted (l : list A) :
  StronglySorted R l -> order_by before l = l.
Proof.
  induction 1 as [|x l Hl IH Hx]; simpl; [reflexivity|].
  rewrite IH. destruct l as [|y l]; simpl; [reflexivity|].
  inversion Hx; subst. now rewrite before_R.
Qed.

Lemma place_In (x y : A) (l : list A) :
  In y (place before x l) <-> y = x \/ In y l.
Proof.
  induction l as [|z l IH]; simpl.
  - intuition congruence.
  - destruct (before x z); simpl; [intuition congruence|].
    rewrite IH. intuition congruence.
Qed.

Lemma order_by_In (y : A) (l : list A) :
  In y (order_by before l) <-> In y l.
Proof.
  induction l as [|x l IH]; simpl; [tauto|].
  rewrite place_In, IH. intuition congruence.
Qed.

Lemma sorted_filter (f : A -> bool) (l : list A) :
  StronglySorted R l -> StronglySorted R (filter f l).
Proof.
  induction 1 as [|x l Hl IH Hx]; simpl; [constructor|].
  destruct (f x); [constructor|]; auto.
  rewrite Forall_forall in *. intros y Hy.
  apply filter_In in Hy. now apply Hx.
Qed.

Lemma sorted_snoc (x : A) (l : list A) :
  StronglySorted R l -> Forall (fun a => R a x) l ->
  StronglySorted R (l ++ [x]).
Proof.
  induction 1 as [|y l Hl IH Hy]; simpl; intros Hall.
  - repeat constructor.
  - inversion Hall; subst. constructor; auto.
    apply Forall_app. split; [assumption|]. now repeat constructor.
Qed.
End OrderByFacts.

(** ** What one [saveMessage] call does *)

(** A fault in the session write takes the process down with nothing
    written and the insert not run.  Otherwise the session write takes
    effect, the insert consumes the next entry of the fault script and takes
    effect unless that is a fault, and the promise is settled by the
    insert. *)
Lemma saveMessage_run (sessionId role content : string) (isFirstMessage : bool)
                      (w : World) :
  saveMessage sessionId role content isFirstMessage w =
  match fault_at 0 w with
  | Some _ => (set_faults (tl (faults w)) w, Exited)
  | None =>
      (set_faults (skipn 2 (faults w))
         (unless_fault (fault_at 1 w)
            (sql_insert_message sessionId role content)
            (session_write sessionId content isFirstMessage w)),
       match fault_at 1 w with
       | None => Resolved tt
       | Some e => Rejected e
       end)
  end.
Proof.
  destruct w as [ss ms n t fs].
  destruct fs as [|[e1|] [|[e2|] fs]]; destruct isFirstMessage; reflexivity.
Qed.

Lemma saveMessage_clean (sessionId role content : string)
                        (isFirstMessage : bool) (w : World) :
  faults w = [] ->
  saveMessage sessionId role content isFirstMessage w =
  (sql_insert_message sessionId role content
     (session_write sessionId content isFirstMessage w),
   Resolved tt).
Proof.
  destruct w as [ss ms n t fs]; simpl; intros ->.
  destruct isFirstMessage; reflexivity.
Qed.

Lemma session_write_messages (sessionId content : string) (b : bool)
                             (w : World) :
  messages (session_write sessionId content b w) = messages w
  /\ clock (session_write sessionId content b w) = clock w
  /\ sqlite_sequence (session_write sessionId content b w) = sqlite_sequence w
  /\ faults (session_write sessionId content b w) = faults w.
Proof. destruct b; repeat split. Qed.

Lemma getConversationHistory_clean (sessionId : string) (w : World) :
  faults w = [] ->
  getConversationHistory sessionId w =
  (w, Resolved (select_history sessionId w)).
Proof.
  unfold getConversationHistory, db_call, next_fault. now intros ->.
Qed.

(** The first half of the turn when no storage fault occurs. *)
Lemma post_message_request_clean (sessionId text : string) (w : World) :
  text <> "" -> faults w = [] ->
  let w1 :=
    sql_insert_message sessionId "user" text
      (session_write sessionId text
         (Nat.eqb (length (select_history sessionId w)) 0) w) in
  post_message_request sessionId (Some text) w =
  (w1, AwaitCompletion (window (select_history sessionId w1))).
Proof.
  intros Htext Hf w1. unfold post_message_request.
  destruct text as [|c text]; [contradiction|].
  unfold bind. rewrite getConversationHistory_clean by exact Hf.
  rewrite saveMessage_clean by exact Hf. fold w1.
  assert (Hf1 : faults w1 = []).
  { unfold w1. simpl.
    now destruct (session_write_messages sessionId (String c text)
                    (Nat.eqb (length (select_history sessionId w)) 0) w)
      as (_ & _ & _ & ->). }
  now rewrite getConversationHistory_clean by exact Hf1.
Qed.

(** ** Chronology *)

Lemma chronological_fresh : chronological fresh.
Proof. split; constructor. Qed.

Lemma chronological_insert (sessionId role content : string) (w : World) :
  chronological w ->
  chronological (sql_insert_message sessionId role content w).
Proof.
  intros [Hs Hc]. split; simpl.
  - apply sorted_snoc; [assumption|].
    eapply Forall_impl; [|exact Hc]. intros m Hm. exact Hm.
  - apply Forall_app. split; [assumption|]. repeat constructor.
Qed.

Lemma chronological_same (w w' : World) :
  messages w' = messages w -> clock w <= clock w' ->
  chronological w -> chronological w'.
Proof.
  intros Hm Hle [Hs Hc]. split; rewrite Hm; [assumption|].
  eapply Forall_impl; [|exact Hc]. simpl. intros m Hm'. lia.
Qed.

(** Time passing and appends, with or without faults, keep the table
    chronological. *)
Lemma chronological_step (w : World) (e : event) :
  chronological w -> chronological (step w e).
Proof.
  intros H. destruct e as [dt | sid role content b]; simpl.
  - apply (chronological_same (w := w)); simpl; [reflexivity | lia | exact H].
  - rewrite saveMessage_run.
    destruct (fault_at 0 w); simpl; [exact H|].
    destruct (session_write_messages sid content b w) as (Hm & Hc & _).
    assert (H1 : chronological (session_write sid content b w)).
    { apply (chronological_same (w := w)); [assumption | lia | exact H]. }
    assert (H2 : chronological
                   (unless_fault (fault_at 1 w)
                      (sql_insert_message sid role content)
                      (session_write sid content b w))).
    { destruct (fault_at 1 w); simpl; [exact H1|].
      now apply chronological_insert. }
    revert H2. apply chronological_same; reflexivity.
Qed.

(** So do the two other store functions that write. *)
Lemma chronological_create (uuid : string) (w : World) :
  chronological w -> chronological (fst (createNewChatSession uuid w)).
Proof.
  intros H. revert H.
  apply chronological_same;
    unfold createNewChatSession, bind, db_call, next_fault, sql_insert_session;
    destruct (faults w) as [|[e|] fs]; simpl; try reflexivity;
    match goal with
    | |- context [has_session ?s ?x] => now destruct (has_session s x)
    end.
Qed.

Lemma chronological_delete (sessionId : string) (w : World) :
  chronological w -> chronological (fst (deleteChatSession sessionId w)).
Proof.
  intros [Hs Hc].
  assert (Hdel : chronological (sql_delete_messages sessionId w)).
  { split; simpl.
    - now apply sorted_filter.
    - rewrite Forall_forall in *. intros m Hm.
      apply filter_In in Hm. now apply Hc. }
  destruct w as [ss ms n t fs].
  destruct fs as [|[e1|] [|[e2|] fs]]; try exact Hdel; now split.
Qed.

Lemma chronological_run (evs : list event) (w : World) :
  chronological w -> chronological (run evs w).
Proof.
  revert w. induction evs as [|e evs IH]; simpl; intros w H; [exact H|].
  apply IH. now apply chronological_step.
Qed.

(** On a chronological table [ORDER BY timestamp ASC] returns the rows of
    the session in rowid order. *)
Lemma select_history_chronological (sessionId : string) (w : World) :
  chronological w ->
  select_history sessionId w =
  map (fun m => Chat.mk (Message.role m) (Message.content m))
      (filter (fun m => String.eqb (Message.session_id m) sessionId)
              (messages w)).
Proof.
  intros [Hs _]. unfold select_history. f_equal.
  apply order_by_sorted with (R := earlier).
  - intros a b Hab. now apply Nat.leb_le.
  - now apply sorted_filter.
Qed.

Lemma faults_step (w : World) (e : event) :
  faults w = [] -> faults (step w e) = [].
Proof.
  intros H. destruct e as [dt | sid role content b]; simpl; [exact H|].
  rewrite saveMessage_clean by exact H. simpl.
  now destruct (session_write_messages sid content b w) as (_ & _ & _ & ->).
Qed.

Lemma faults_run (evs : list event) (w : World) :
  faults w = [] -> faults (run evs w) = [].
Proof.
  revert w. induction evs as [|e evs IH]; simpl; intros w H; [exact H|].
  apply IH. now apply faults_step.
Qed.

Lemma select_history_step (sessionId : string) (w : World) (e : event) :
  chronological w -> faults w = [] ->
  select_history sessionId (step w e) =
  select_history sessionId w ++ appended sessionId [e].
Proof.
  intros Hc Hf.
  rewrite (select_history_chronological sessionId (chronological_step e Hc)).
  rewrite (select_history_chronological sessionId Hc).
  destruct e as [dt | sid role content b]; simpl.
  - now rewrite app_nil_r.
  - rewrite saveMessage_clean by exact Hf. simpl.
    destruct (session_write_messages sid content b w) as (-> & _).
    rewrite filter_app, map_app. simpl.
    now destruct (String.eqb sid sessionId).
Qed.

Lemma appended_cons (sessionId : string) (e : event) (evs : list event) :
  appended sessionId (e :: evs) =
  appended sessionId [e] ++ appended sessionId evs.
Proof.
  destruct e as [dt | sid role content b]; simpl; [reflexivity|].
  now destruct (String.eqb sid sessionId).
Qed.

Lemma select_history_run (sessionId : string) (evs : list event) (w : World) :
  chronological w -> faults w = [] ->
  select_history sessionId (run evs w) =
  select_history sessionId w ++ appended sessionId evs.
Proof.
  revert w. induction evs as [|e evs IH]; intros w Hc Hf.
  - simpl. now rewrite app_nil_r.
  - change (run (e :: evs) w) with (run evs (step w e)).
    rewrite IH by (now apply chronological_step || now apply faults_step).
    rewrite select_history_step by assumption.
    rewrite (appended_cons sessionId e evs). now rewrite app_assoc.
Qed.

(** C1.  After any sequence of [saveMessage] calls, on this session and on
    others, with time passing in between, [getConversationHistory] resolves
    with what the session held before followed by exactly the messages
    appended to it, in the order of the calls; on a fresh database, with
    those messages alone. *)
Theorem history_in_append_order (sessionId : string) (evs : list event)
                                (w : World) :
  chronological w -> faults w = [] ->
  getConversationHistory sessionId (run evs w) =
  (run evs w,
   Resolved (select_history sessionId w ++ appended sessionId evs)).
Proof.
  intros Hc Hf.
  rewrite getConversationHistory_clean by now apply faults_run.
  now rewrite select_history_run.
Qed.

Lemma history_in_append_order_witness :
  chronological fresh /\ faults fresh = [] /\
  snd (getConversationHistory "a" (run two_sessions fresh)) =
  Resolved [Chat.mk "user" "one"; Chat.mk "assistant" "two";
            Chat.mk "user" "three"].
Proof.
  split; [exact chronological_fresh|]. split; [reflexivity|].
  rewrite (history_in_append_order "a" two_sessions chronological_fresh
             eq_refl).
  reflexivity.
Defined.

(** ** The history window *)

Lemma copy_messages (l : list Chat.msg) :
  map (fun msg => Chat.mk (Chat.role msg) (Chat.content msg)) l = l.
Proof.
  induction l as [|[r c] l IH]; simpl; [reflexivity|]. now rewrite IH.
Qed.

Lemma window_eq (history : list Chat.msg) :
  window history = system_message :: slice_last 15 history.
Proof. unfold window. now rewrite copy_messages. Qed.

Lemma slice_last_length {A} (n : nat) (l : list A) :
  length (slice_last n l) = Nat.min n (length l).
Proof. unfold slice_last. rewrite length_skipn. lia. Qed.

Lemma slice_last_suffix {A} (n : nat) (l : list A) :
  l = firstn (length l - n) l ++ slice_last n l.
Proof. unfold slice_last. now rewrite firstn_skipn. Qed.

Lemma filter_none {A} (f : A -> bool) (l : list A) :
  forallb (fun a => negb (f a)) l = true -> filter f l = [].
Proof.
  induction l as [|a l IH]; simpl; [reflexivity|].
  intros H. apply andb_prop in H as [Ha Hl].
  destruct (f a); [discriminate|]. now apply IH.
Qed.

Lemma forallb_skipn {A} (f : A -> bool) (n : nat) (l : list A) :
  forallb f l = true -> forallb f (skipn n l) = true.
Proof.
  revert l. induction n as [|n IH]; intros [|a l]; simpl; auto.
  intros H. apply andb_prop in H as [_ Hl]. now apply IH.
Qed.

(** C2.  The window is the system message with the fixed instruction,
    followed by the last 15 messages of the history (all of them when there
    are fewer), unchanged and in order; no other system message is added;
    and 20 messages give 16, the last 15 of them being the last 15 of the
    input. *)
Theorem window_last_15 (history : list Chat.msg) :
  window history = system_message :: slice_last 15 history
  /\ is_system system_message = true
  /\ history = firstn (length history - 15) history ++ slice_last 15 history
  /\ length (slice_last 15 history) = Nat.min 15 (length history)
  /\ (forallb (fun m => negb (is_system m)) history = true ->
      filter is_system (window history) = [system_message])
  /\ (length history = 20 ->
      length (window history) = 16
      /\ hd_error (window history) = Some system_message
      /\ tl (window history) = skipn 5 history).
Proof.
  split; [apply window_eq|]. split; [reflexivity|].
  split; [apply slice_last_suffix|]. split; [apply slice_last_length|].
  split.
  - intros H. rewrite window_eq. simpl. f_equal.
    apply filter_none. now apply forallb_skipn.
  - intros H. rewrite window_eq. simpl. rewrite slice_last_length.
    unfold slice_last. rewrite H. repeat split.
Qed.

Lemma window_last_15_witness :
  forallb (fun m => negb (is_system m)) (lettered 20) = true
  /\ length (lettered 20) = 20
  /\ filter is_system (window (lettered 20)) = [system_message]
  /\ length (window (lettered 20)) = 16
  /\ hd_error (window (lettered 20)) = Some system_message
  /\ tl (window (lettered 20)) = skipn 5 (lettered 20).
Proof.
  destruct (window_last_15 (lettered 20)) as (_ & _ & _ & _ & Hsys & H20).
  split; [reflexivity|]. split; [reflexivity|].
  split; [apply Hsys; reflexivity|]. apply H20. reflexivity.
Defined.

(** ** Titles *)

Lemma filter_out_in {A} (f : A -> bool) (l : list A) :
  filter f (filter (fun a => negb (f a)) l) = [].
Proof.
  induction l as [|a l IH]; simpl; [reflexivity|].
  destruct (f a) eqn:E; simpl; [exact IH|]. now rewrite E.
Qed.

Lemma select_title_replaced (sessionId title : string) (w : World) :
  select_title sessionId (sql_insert_or_replace_session sessionId title w) =
  Some title.
Proof.
  unfold select_title, sql_insert_or_replace_session. simpl.
  rewrite filter_app.
  rewrite (filter_out_in (fun r => String.eqb (Session.id r) sessionId)).
  simpl. now rewrite String.eqb_refl.
Qed.

Lemma derived_title_eq (content : string) :
  (if Nat.ltb 30 (js_length content)
   then String.append (js_substring_0 30 content) "..."
   else content) = derived_title content.
Proof.
  unfold derived_title.
  destruct (Nat.ltb_spec 30 (js_length content)) as [H|H];
    destruct (Nat.leb_spec (js_length content) 30) as [H'|H'];
    reflexivity || lia.
Qed.

Lemma first_message_title (sessionId role content : string) (w : World) :
  faults w = [] ->
  select_title sessionId (fst (saveMessage sessionId role content true w)) =
  Some (derived_title content).
Proof.
  intros Hf. rewrite saveMessage_clean by exact Hf.
  unfold session_write. rewrite derived_title_eq.
  exact (select_title_replaced sessionId (derived_title content) w).
Qed.

Lemma unit_count_ascii (b : ascii) :
  Nat.ltb (nat_of_ascii b) 128 = true ->
  is_continuation b = false /\ unit_count b = 1.
Proof.
  intros H. apply Nat.ltb_lt in H. unfold unit_count, is_continuation.
  assert (E1 : Nat.leb 128 (nat_of_ascii b) = false) by (apply Nat.leb_gt; lia).
  assert (E2 : Nat.leb 240 (nat_of_ascii b) = false) by (apply Nat.leb_gt; lia).
  rewrite E1, E2. now split.
Qed.

(** On a text of one-byte characters the counts are those of the bytes. *)
Lemma js_length_ascii (s : string) :
  is_ascii s = true -> js_length s = String.length s.
Proof.
  induction s as [|b s IH]; simpl; [reflexivity|]. intros H.
  apply andb_prop in H as [Hb Hs].
  destruct (unit_count_ascii b Hb) as [_ ->]. now rewrite IH.
Qed.

Lemma js_substring_0_ascii (n : nat) (s : string) :
  is_ascii s = true -> js_substring_0 n s = substring 0 n s.
Proof.
  revert n. induction s as [|b s IH]; intros n H; simpl.
  - now destruct n.
  - apply andb_prop in H as [Hb Hs].
    destruct (unit_count_ascii b Hb) as [-> ->].
    destruct n as [|n]; simpl; [reflexivity|].
    now rewrite Nat.sub_0_r, IH.
Qed.

(** The counts on a letter, on e-acute (two bytes, one unit), on the euro
    sign (three bytes, one unit) and on an emoji (four bytes, two units),
    and the cuts of "a" followed by the emoji. *)
Lemma js_counts :
  js_length "a" = 1
  /\ js_length (String (ascii_of_nat 195)
                  (String (ascii_of_nat 169) EmptyString)) = 1
  /\ js_length (String (ascii_of_nat 226)
                  (String (ascii_of_nat 130)
                     (String (ascii_of_nat 172) EmptyString))) = 1
  /\ js_length grinning_face = 2
  /\ js_length replacement = 1
  /\ js_substring_0 1 (String.append "a" grinning_face) = "a"
  /\ js_substring_0 2 (String.append "a" grinning_face) =
     String.append "a" replacement
  /\ js_substring_0 3 (String.append "a" grinning_face) =
     String.append "a" grinning_face.
Proof. repeat split. Qed.

(** For a message of one-byte characters the title is the message when it
    has at most 30 of them, and its first 30 followed by "..." otherwise. *)
Lemma title_of_ascii_message (sessionId role content : string) (w : World) :
  faults w = [] -> is_ascii content = true ->
  select_title sessionId (fst (saveMessage sessionId role content true w)) =
  Some (if Nat.leb (String.length content) 30
        then content
        else String.append (substring 0 30 content) "...").
Proof.
  intros Hf Ha. rewrite first_message_title by exact Hf.
  unfold derived_title.
  now rewrite js_length_ascii, js_substring_0_ascii by exact Ha.
Qed.

Lemma prefix_nil (s : string) : prefix "" s = true.
Proof. now destruct s. Qed.

Lemma prefix_cons (b : ascii) (p s : string) :
  prefix (String b p) (String b s) = prefix p s.
Proof. simpl. destruct (ascii_dec b b); [reflexivity | contradiction]. Qed.

(** What the cut gives in general: a prefix of the text holding whole
    characters, and after it U+FFFD when the last unit asked for is the
    first half of a pair. *)
Lemma js_substring_0_cases (n : nat) (s : string) :
  exists p,
    prefix p s = true
    /\ (js_substring_0 n s = p
        \/ (js_substring_0 n s = String.append p replacement
            /\ js_length p + 1 = n)).
Proof.
  revert n. induction s as [|b s IH]; intros n; simpl.
  - exists "". split; [reflexivity | now left].
  - destruct (is_continuation b) eqn:C.
    + destruct (IH n) as (p & Hp & [E | [E Hn]]);
        exists (String b p); (split; [destruct (ascii_dec b b); [exact Hp | contradiction]|]).
      * left. now rewrite E.
      * right. split; [now rewrite E|].
        simpl. unfold unit_count. now rewrite C.
    + destruct (Nat.leb_spec (unit_count b) n) as [Hfit | Hcut].
      * destruct (IH (n - unit_count b)) as (p & Hp & [E | [E Hn]]);
          exists (String b p); (split; [destruct (ascii_dec b b); [exact Hp | contradiction]|]).
        -- left. now rewrite E.
        -- right. split; [now rewrite E|]. simpl. lia.
      * exists "". split; [reflexivity|].
        destruct n as [|n]; simpl; [now left|]. right. split; [reflexivity|].
        unfold unit_count in Hcut. rewrite C in Hcut.
        destruct (Nat.leb 240 (nat_of_ascii b)); lia.
Qed.

(** C3.  A message of 29 letters, an emoji and three more letters has 34
    code units.  The title stored for it, by [saveMessage] and by the whole
    chat turn, is the 29 letters, U+FFFD and "...": the 30th unit is the
    first half of the emoji, and what is stored in its place is a character
    the message does not contain, so that the title does not begin with the
    first 30 units of the message, nor with its first 30 characters. *)
Theorem title_splits_a_character :
  js_length split_message = 34
  /\ select_title "s"
       (fst (saveMessage "s" "user" split_message true new_chat)) =
     Some (String.concat "" [twenty_nine_letters; replacement; "..."])
  /\ select_title "s"
       (fst (post_message (canned (Completion "yo" 7)) 2 "s"
                          (Some split_message) new_chat)) =
     Some (String.concat "" [twenty_nine_letters; replacement; "..."])
  /\ prefix (String.append twenty_nine_letters grinning_face) split_message
     = true
  /\ prefix (String.append twenty_nine_letters replacement) split_message
     = false
  /\ includes replacement split_message = false.
Proof. repeat split. Qed.

(** ** Creation time *)

(** The first-message branch leaves the session with a row made at the
    time of the call, whatever row it had. *)
Lemma first_message_row (sessionId role content : string) (w : World) :
  faults w = [] ->
  chat_sessions (fst (saveMessage sessionId role content true w)) =
  filter (fun r => negb (String.eqb (Session.id r) sessionId))
         (chat_sessions w)
  ++ [Session.mk sessionId (derived_title content) (clock w) (clock w)].
Proof.
  intros Hf. rewrite saveMessage_clean by exact Hf. simpl.
  now rewrite derived_title_eq.
Qed.

(** The other branch keeps [created_at] of every row. *)
Lemma later_message_created_at (sessionId role content : string) (w : World) :
  map Session.created_at
      (chat_sessions (fst (saveMessage sessionId role content false w))) =
  map Session.created_at (chat_sessions w).
Proof.
  rewrite saveMessage_run.
  destruct (fault_at 0 w), (fault_at 1 w); simpl; try reflexivity;
    rewrite map_map; apply map_ext; intros r;
    now destruct (String.eqb (Session.id r) sessionId).
Qed.

(** C4.  A chat is created at second 0; its first message is sent at second
    5, and the session row's [created_at] is 5 from then on. *)
Theorem created_at_reset_by_first_message :
  map Session.created_at (chat_sessions (fst (post_new "s" fresh))) = [0]
  /\ map Session.created_at (chat_sessions new_chat) = [0]
  /\ map Session.created_at
         (chat_sessions
            (fst (post_message (canned (Completion "yo" 7)) 2 "s" (Some "hi")
                               new_chat))) = [5]
  /\ map Session.created_at
         (chat_sessions (fst (saveMessage "s" "user" "hi" true new_chat))) =
     [5].
Proof. repeat split. Qed.

(** ** The two writes of [saveMessage] *)

(** The chat exists since second 0; at second 5 a message is saved, the
    [UPDATE] goes through and the [INSERT] finds the disk full: the call
    rejects, [updated_at] is 5 and there is no message. *)
Lemma metadata_without_message :
  db new_chat_disk_full = ([Session.mk "s" "New Chat" 0 0], [], 0)
  /\ saveMessage "s" "user" "hi" false new_chat_disk_full =
     (mkWorld [Session.mk "s" "New Chat" 0 5] [] 0 5 [],
      Rejected "SQLITE_FULL: database or disk is full")
  /\ ~ both_or_neither "s" "user" "hi" false new_chat_disk_full.
Proof.
  split; [reflexivity|]. split; [reflexivity|].
  unfold both_or_neither. intros [H | H]; vm_compute in H; discriminate H.
Qed.

(** C5, as the code has it.  The session write and the message insert are
    two statements run one after the other, not one transaction.  The
    database ends in one of three states: as it was, with the session write
    alone, or with both writes; the message is never there without the
    session write having gone through.  A fault in the session write takes
    the process down with nothing written; a fault in the insert leaves the
    session write in place without the message and rejects the call. *)
Theorem saveMessage_two_writes (sessionId role content : string)
                               (isFirstMessage : bool) (w : World) :
  let w' := fst (saveMessage sessionId role content isFirstMessage w) in
  let written := session_write sessionId content isFirstMessage w in
  let both := sql_insert_message sessionId role content written in
  (db w' = db w \/ db w' = db written \/ db w' = db both)
  /\ db w' =
     db (match fault_at 0 w, fault_at 1 w with
         | Some _, _ => w
         | None, Some _ => written
         | None, None => both
         end)
  /\ snd (saveMessage sessionId role content isFirstMessage w) =
     match fault_at 0 w, fault_at 1 w with
     | Some _, _ => Exited
     | None, Some e => Rejected e
     | None, None => Resolved tt
     end.
Proof.
  cbv zeta. rewrite saveMessage_run.
  destruct (fault_at 0 w) as [e0|]; [|destruct (fault_at 1 w) as [e1|]];
    simpl; (split; [|split; reflexivity]).
  - now left.
  - right. now left.
  - right. now right.
Qed.

(** ** Where session rows come from *)

Lemma adds_at_most_refl (sessionId : string) (w : World) :
  adds_at_most sessionId w w.
Proof. unfold adds_at_most. apply incl_tl, incl_refl. Qed.

Lemma adds_at_most_trans (sessionId : string) (w1 w2 w3 : World) :
  adds_at_most sessionId w1 w2 -> adds_at_most sessionId w2 w3 ->
  adds_at_most sessionId w1 w3.
Proof.
  unfold adds_at_most. intros H12 H23 id Hid.
  destruct (H23 id Hid) as [<- | Hin]; [now left | now apply H12].
Qed.

Lemma adds_at_most_same (sessionId : string) (w w' : World) :
  chat_sessions w' = chat_sessions w -> adds_at_most sessionId w w'.
Proof.
  unfold adds_at_most, session_ids. intros ->. apply incl_tl, incl_refl.
Qed.

Lemma adds_at_most_bind {A B} (sessionId : string) (m : Async A)
                        (k : A -> Async B) :
  (forall w, adds_at_most sessionId w (fst (m w))) ->
  (forall a w, adds_at_most sessionId w (fst (k a w))) ->
  forall w, adds_at_most sessionId w (fst (bind m k w)).
Proof.
  intros Hm Hk w. unfold bind. specialize (Hm w).
  destruct (m w) as [w1 [a | e |]]; simpl in *; [|exact Hm..].
  eapply adds_at_most_trans; [exact Hm | apply Hk].
Qed.

Lemma getConversationHistory_sessions (sessionId : string) (w : World) :
  chat_sessions (fst (getConversationHistory sessionId w)) = chat_sessions w.
Proof.
  unfold getConversationHistory, db_call, next_fault.
  now destruct (faults w) as [|[e|] fs].
Qed.

Lemma session_write_adds (sessionId content : string) (b : bool) (w : World) :
  adds_at_most sessionId w (session_write sessionId content b w).
Proof.
  unfold adds_at_most, session_ids. destruct b; simpl.
  - rewrite map_app. simpl. intros id Hid.
    apply in_app_or in Hid as [Hid | [<- | []]]; [right | now left].
    apply in_map_iff in Hid as (r & <- & Hr).
    apply filter_In in Hr as [Hr _]. now apply in_map.
  - rewrite map_map. apply incl_tl. intros id Hid.
    apply in_map_iff in Hid as (r & <- & Hr).
    apply in_map_iff. exists r. split; [|exact Hr].
    now destruct (String.eqb (Session.id r) sessionId).
Qed.

Lemma saveMessage_adds (sessionId role content : string) (b : bool)
                       (w : World) :
  adds_at_most sessionId w (fst (saveMessage sessionId role content b w)).
Proof.
  rewrite saveMessage_run.
  destruct (fault_at 0 w); simpl; [now apply adds_at_most_same|].
  apply adds_at_most_trans
    with (w2 := session_write sessionId content b w).
  - apply session_write_adds.
  - apply adds_at_most_same. now destruct (fault_at 1 w).
Qed.

Lemma getConversationHistory_adds (sessionId : string) (w : World) :
  adds_at_most sessionId w (fst (getConversationHistory sessionId w)).
Proof. apply adds_at_most_same, getConversationHistory_sessions. Qed.

Lemma post_message_request_adds (sessionId : string) (message : option string)
                                (w : World) :
  adds_at_most sessionId w (fst (post_message_request sessionId message w)).
Proof.
  unfold post_message_request.
  destruct message as [[|c text]|]; try apply adds_at_most_refl.
  match goal with
  | |- adds_at_most _ _ (fst (match ?block w with _ => _ end)) =>
      assert (H : adds_at_most sessionId w (fst (block w)));
      [|now destruct (block w) as [w1 [msgs | e |]]]
  end.
  apply adds_at_most_bind; [apply getConversationHistory_adds|].
  intros existingMessages.
  apply adds_at_most_bind; [apply saveMessage_adds|]. intros _.
  apply adds_at_most_bind; [apply getConversationHistory_adds|].
  intros history w0. apply adds_at_most_refl.
Qed.

Lemma post_message_resume_adds (sessionId : string) (c : completion)
                               (w : World) :
  adds_at_most sessionId w (fst (post_message_resume sessionId c w)).
Proof.
  destruct c as [aiResponse tokensUsed | message]; simpl;
    [|apply adds_at_most_refl].
  unfold try_catch.
  pose proof (saveMessage_adds sessionId "assistant" aiResponse false w) as H.
  now destruct (saveMessage sessionId "assistant" aiResponse false w)
    as [w1 [u | e |]].
Qed.

(** A first message sent to an id that was never created leaves a session
    row of that id. *)
Lemma implicit_session_creation :
  session_ids fresh = []
  /\ session_ids
       (fst (post_message (canned (Completion "yo" 7)) 2 "ghost" (Some "hi")
                          fresh)) = ["ghost"]
  /\ ~ incl (session_ids
               (fst (post_message (canned (Completion "yo" 7)) 2 "ghost"
                                  (Some "hi") fresh)))
            (session_ids fresh).
Proof.
  split; [reflexivity|]. split; [reflexivity|].
  intros H. exact (H "ghost" (or_introl eq_refl)).
Qed.

Lemma later_message_ids (sessionId role content : string) (w : World) :
  session_ids (fst (saveMessage sessionId role content false w)) =
  session_ids w.
Proof.
  rewrite saveMessage_run. unfold session_ids.
  destruct (fault_at 0 w), (fault_at 1 w); simpl; try reflexivity;
    rewrite map_map; apply map_ext; intros r;
    now destruct (String.eqb (Session.id r) sessionId).
Qed.

Lemma post_message_resume_ids (sessionId : string) (c : completion)
                              (w : World) :
  session_ids (fst (post_message_resume sessionId c w)) = session_ids w.
Proof.
  destruct c as [aiResponse tokensUsed | message]; simpl; [|reflexivity].
  unfold try_catch.
  pose proof (later_message_ids sessionId "assistant" aiResponse w) as H.
  now destruct (saveMessage sessionId "assistant" aiResponse false w)
    as [w1 [u | e |]].
Qed.

(** C6, as the code has it.  A chat turn adds no session id to the store
    other than the one it is addressed to, whatever the message, the
    completion API and the storage faults; and that one it does add, by the
    first-message branch of [saveMessage], when the session has no stored
    message, whether or not it has a row. *)
Theorem post_message_adds_own_id_only
  (groq : list Chat.msg -> completion) (latency : nat) (sessionId : string)
  (message : option string) (w : World) :
  incl (session_ids (fst (post_message groq latency sessionId message w)))
       (sessionId :: session_ids w)
  /\ (forall text,
        message = Some text -> text <> "" -> faults w = [] ->
        select_history sessionId w = [] ->
        In sessionId
           (session_ids
              (fst (post_message groq latency sessionId message w)))).
Proof.
  split.
  - change (adds_at_most sessionId w
              (fst (post_message groq latency sessionId message w))).
    unfold post_message.
    pose proof (post_message_request_adds sessionId message w) as H1.
    destruct (post_message_request sessionId message w) as [w1 [r | msgs]];
      simpl in H1; [exact H1|].
    eapply adds_at_most_trans; [exact H1|].
    eapply adds_at_most_trans;
      [|apply post_message_resume_adds]. now apply adds_at_most_same.
  - intros text -> Htext Hf Hempty. unfold post_message.
    rewrite (@post_message_request_clean sessionId text w Htext Hf).
    cbv zeta. rewrite post_message_resume_ids, Hempty.
    unfold session_ids. simpl. rewrite map_app. simpl.
    apply in_or_app. right. now left.
Qed.

Lemma post_message_adds_own_id_only_witness :
  "hi" <> "" /\ faults fresh = [] /\ select_history "ghost" fresh = []
  /\ In "ghost"
        (session_ids
           (fst (post_message (canned (Completion "yo" 7)) 2 "ghost"
                              (Some "hi") fresh))).
Proof.
  assert (Ht : "hi" <> "") by discriminate.
  repeat split; try assumption.
  exact (proj2 (post_message_adds_own_id_only
                  (canned (Completion "yo" 7)) 2 "ghost" (Some "hi") fresh)
               "hi" eq_refl Ht eq_refl eq_refl).
Defined.

(** ** Messages and their sessions *)

(** C7.  On a fresh database [saveMessage] with [isFirstMessage = false]
    stores a message under an id that has no session row; and a chat
    deleted while its turn waits for the completion API is left with the
    assistant's message and no session row. *)
Theorem message_without_session :
  owned fresh = true
  /\ owned (fst (saveMessage "ghost" "user" "hi" false fresh)) = false
  /\ snd (saveMessage "ghost" "user" "hi" false fresh) = Resolved tt
  /\ chat_sessions deleted_while_waiting = []
  /\ messages deleted_while_waiting =
     [Message.mk 2 "s" "assistant" "yo" 7]
  /\ owned deleted_while_waiting = false
  /\ select_history "s" deleted_while_waiting = [Chat.mk "assistant" "yo"].
Proof. repeat split. Qed.

(** ** Storage faults *)

Lemma fetch_title_resolves (sessionId : string) (w : World) :
  exists row, snd (fetch_title sessionId w) = Resolved row.
Proof.
  unfold fetch_title, db_call, next_fault.
  destruct (faults w) as [|[e|] fs]; simpl; eexists; reflexivity.
Qed.

(** A fault in a statement whose callback rejects is answered 500 by the
    routes of the store functions. *)
Lemma fault_answered_500 (localeString sessionId uuid : string) (e : Error)
                         (w : World) :
  fault_at 0 w = Some e ->
  status (snd (get_chats w)) = 500
  /\ status (snd (get_chat sessionId w)) = 500
  /\ status (snd (post_new uuid w)) = 500
  /\ status (snd (get_export localeString sessionId w)) = 500.
Proof.
  unfold fault_at. destruct w as [ss ms n t fs].
  destruct fs as [|[e'|] fs]; simpl; try discriminate.
  intros _. repeat split.
Qed.

Lemma delete_fault_answered_500 (sessionId : string) (e : Error) (w : World) :
  fault_at 0 w = None -> fault_at 1 w = Some e ->
  status (snd (delete_chat sessionId w)) = 500.
Proof.
  unfold fault_at. destruct w as [ss ms n t fs].
  destruct fs as [|[e1|] [|[e2|] fs]]; simpl; try discriminate;
    intros _ _; reflexivity.
Qed.

(** C8.  The session is titled "Hi"; the title query of the export fails
    with an I/O error, and the answer is a 200 whose transcript is headed
    "Title: Untitled". *)
Theorem export_hides_title_fault :
  select_title "s" titled_chat_io_error = Some "Hi"
  /\ fault_at 1 titled_chat_io_error = Some "SQLITE_IOERR: disk I/O error"
  /\ snd (get_export "now" "s" titled_chat_io_error) =
     mkResponse 200
       (attachment_body "chat-s.txt"
          (export_text "now" None [Chat.mk "user" "Hi"]))
  /\ includes "Title: Untitled"
       (export_text "now" None [Chat.mk "user" "Hi"]) = true
  /\ snd (get_export "now" "s" titled_chat) =
     mkResponse 200
       (attachment_body "chat-s.txt"
          (export_text "now" (Some "Hi") [Chat.mk "user" "Hi"])).
Proof. repeat split. Qed.

(** ** The chat turn *)

Lemma on_error_status (message : Error) :
  status (on_error message) = 429 \/ status (on_error message) = 500.
Proof.
  unfold on_error.
  destruct (includes "rate limit" message); [now left|].
  destruct (includes "quota" message); [now left | now right].
Qed.

Lemma select_history_In (sessionId : string) (m : Message.row) (w : World) :
  In m (messages w) -> Message.session_id m = sessionId ->
  In (Chat.mk (Message.role m) (Message.content m))
     (select_history sessionId w).
Proof.
  intros Hin Hsid. unfold select_history.
  apply (in_map (fun m => Chat.mk (Message.role m) (Message.content m))).
  apply order_by_In. apply filter_In. split; [exact Hin|].
  rewrite Hsid. apply String.eqb_refl.
Qed.

(** C9.  When the completion API fails, the turn ends with the user's
    message as the one new row of [messages], nothing deleted, the message
    in the session's history, and a 429 or a 500 as the answer. *)
Theorem user_turn_kept_on_failure
  (groq : list Chat.msg -> completion) (latency : nat)
  (sessionId text : string) (w : World) :
  failing groq -> text <> "" -> faults w = [] ->
  let w' := fst (post_message groq latency sessionId (Some text) w) in
  let r := snd (post_message groq latency sessionId (Some text) w) in
  messages w' =
    messages w
    ++ [Message.mk (S (sqlite_sequence w)) sessionId "user" text (clock w)]
  /\ In (Chat.mk "user" text) (select_history sessionId w')
  /\ (status r = 429 \/ status r = 500).
Proof.
  intros Hgroq Htext Hf. unfold post_message.
  rewrite (@post_message_request_clean sessionId text w Htext Hf). cbv zeta.
  set (first := Nat.eqb (length (select_history sessionId w)) 0).
  set (w1 := sql_insert_message sessionId "user" text
               (session_write sessionId text first w)).
  destruct (Hgroq (window (select_history sessionId w1))) as [e ->].
  simpl.
  destruct (session_write_messages sessionId text first w)
    as (Hm & Hc & Hs & _).
  rewrite Hm, Hc, Hs.
  split; [reflexivity|]. split; [|apply on_error_status].
  apply (@select_history_In sessionId
           (Message.mk (S (sqlite_sequence w)) sessionId "user" text (clock w))
           (tick latency w1)); [|reflexivity].
  simpl. rewrite Hm, Hc, Hs. apply in_or_app. right. now left.
Qed.

Lemma user_turn_kept_on_failure_witness :
  failing (canned (Failure "429 rate limit reached"))
  /\ "hello" <> "" /\ faults new_chat = []
  /\ messages
       (fst (post_message (canned (Failure "429 rate limit reached")) 2 "s"
                          (Some "hello") new_chat)) =
     [Message.mk 1 "s" "user" "hello" 5]
  /\ In (Chat.mk "user" "hello")
        (select_history "s"
           (fst (post_message (canned (Failure "429 rate limit reached")) 2
                              "s" (Some "hello") new_chat))).
Proof.
  assert (Hg : failing (canned (Failure "429 rate limit reached")))
    by (intros msgs; eexists; reflexivity).
  assert (Ht : "hello" <> "") by discriminate.
  destruct (@user_turn_kept_on_failure
              (canned (Failure "429 rate limit reached")) 2 "s" "hello"
              new_chat Hg Ht eq_refl)
    as (Hm & Hin & _).
  repeat split; assumption.
Defined.

(** C10.  A turn whose [message] field is missing or is the empty string is
    answered 400 with the world as it was: no row is added or changed and
    no statement reaches the database, whatever the completion API and the
    faults in store. *)
Theorem empty_message_rejected
  (groq : list Chat.msg -> completion) (latency : nat) (sessionId : string)
  (w : World) :
  post_message groq latency sessionId None w =
    (w, mkResponse 400 (error_body "Message is required"))
  /\ post_message groq latency sessionId (Some "") w =
    (w, mkResponse 400 (error_body "Message is required")).
Proof. split; reflexivity. Qed.

(** * Further properties of the store and the routes *)

(** ** What [ORDER BY] returns on any table *)

Section OrderByOutput.
Variable A : Type.
Variable before : A -> A -> bool.
Variable R : A -> A -> Prop.
Hypothesis R_trans : forall a b c, R a b -> R b c -> R a c.
Hypothesis before_sound : forall a b, before a b = true -> R a b.
Hypothesis before_total : forall a b, before a b = false -> R b a.

Lemma place_perm (x : A) (l : list A) :
  Permutation (place before x l) (x :: l).
Proof.
  induction l as [|y l IH]; simpl; [reflexivity|].
  destruct (before x y); [reflexivity|].
  rewrite IH. apply perm_swap.
Qed.

Lemma order_by_perm (l : list A) : Permutation (order_by before l) l.
Proof.
  induction l as [|x l IH]; simpl; [reflexivity|].
  rewrite place_perm. now constructor.
Qed.

Lemma place_ordered (x : A) (l : list A) :
  StronglySorted R l -> StronglySorted R (place before x l).
Proof.
  induction 1 as [|y l Hl IH Hy]; simpl; [repeat constructor|].
  destruct (before x y) eqn:E.
  - constructor; [now constructor|]. constructor; [now apply before_sound|].
    eapply Forall_impl; [|exact Hy]. intros z Hz.
    eapply R_trans; [apply before_sound; exact E | exact Hz].
  - constructor; [exact IH|].
    rewrite Forall_forall in *. intros z Hz.
    apply place_In in Hz as [-> | Hz]; [now apply before_total | now apply Hy].
Qed.

Lemma order_by_ordered (l : list A) : StronglySorted R (order_by before l).
Proof.
  induction l as [|x l IH]; simpl; [constructor | now apply place_ordered].
Qed.
End OrderByOutput.

Lemma select_sessions_perm (w : World) :
  Permutation (select_sessions w) (chat_sessions w).
Proof. apply order_by_perm. Qed.

Lemma select_sessions_ordered (w : World) :
  StronglySorted newest_first (select_sessions w).
Proof.
  apply order_by_ordered; unfold newest_first.
  - intros a b c Hab Hbc. lia.
  - intros a b H. now apply Nat.leb_le.
  - intros a b H. apply Nat.leb_gt in H. lia.
Qed.

(** X1.  [GET /api/chats] answers 500 when its statement fails; otherwise
    it lists every session row exactly once, latest [updated_at] first. *)
Theorem chats_listed_newest_first (w : World) :
  snd (get_chats w) =
    match fault_at 0 w with
    | Some _ => mkResponse 500 (error_body "Failed to load chats")
    | None => json (sessions_body (select_sessions w))
    end
  /\ Permutation (select_sessions w) (chat_sessions w)
  /\ StronglySorted newest_first (select_sessions w).
Proof.
  split; [|split; [apply select_sessions_perm | apply select_sessions_ordered]].
  destruct w as [ss ms n t fs]. now destruct fs as [|[e|] fs].
Qed.

(** X2.  [GET /api/chats/:sessionId] answers 500 when its statement fails;
    otherwise its list is made of the rows of [messages] with that
    [session_id], each once, by ascending [timestamp], whatever the table
    holds. *)
Theorem chat_history_by_timestamp (sessionId : string) (w : World) :
  snd (get_chat sessionId w) =
    match fault_at 0 w with
    | Some _ => mkResponse 500 (error_body "Failed to load chat")
    | None => json (messages_body (select_history sessionId w))
    end
  /\ exists rows,
       select_history sessionId w =
         map (fun m => Chat.mk (Message.role m) (Message.content m)) rows
       /\ Permutation rows
            (filter (fun m => String.eqb (Message.session_id m) sessionId)
                    (messages w))
       /\ StronglySorted earlier rows.
Proof.
  split.
  - destruct w as [ss ms n t fs]. now destruct fs as [|[e|] fs].
  - eexists. split; [reflexivity|]. split; [apply order_by_perm|].
    apply order_by_ordered; unfold earlier.
    + intros a b c Hab Hbc. lia.
    + intros a b H. now apply Nat.leb_le.
    + intros a b H. apply Nat.leb_gt in H. lia.
Qed.

(** ** The routes as sequences of primitive writes *)

Ltac fits :=
  split;
  [simpl; try exact I; try assumption | first [now left | now right]].

Ltac all_fit :=
  repeat first
    [ apply Forall_nil
    | apply Forall_cons; [fits|]
    | apply Forall_app; split ].

Lemma play_app (l1 l2 : list action) (w : World) :
  play (l1 ++ l2) w = play l2 (play l1 w).
Proof. apply fold_left_app. Qed.

Lemma scripted_ret {A} (sessionId : string) (a : A) :
  scripted sessionId (ret a).
Proof. intros w. exists []. split; [constructor | reflexivity]. Qed.

Lemma scripted_bind {A B} (sessionId : string) (m : Async A)
                    (k : A -> Async B) :
  scripted sessionId m -> (forall a, scripted sessionId (k a)) ->
  scripted sessionId (bind m k).
Proof.
  intros Hm Hk w. unfold bind. destruct (Hm w) as (l1 & Hl1 & E1).
  destruct (m w) as [w1 [a | e |]]; simpl in E1; subst w1.
  - destruct (Hk a (play l1 w)) as (l2 & Hl2 & E2).
    exists (l1 ++ l2). split; [now apply Forall_app|].
    now rewrite play_app.
  - now exists l1.
  - now exists l1.
Qed.

Lemma scripted_try_catch {A} (sessionId : string) (block : Async A)
                         (ok : A -> Response) (handler : Error -> Response) :
  scripted sessionId block -> scripted sessionId (try_catch block ok handler).
Proof.
  intros H w. destruct (H w) as (l & Hl & E). exists l. split; [exact Hl|].
  unfold try_catch. now destruct (block w) as [w1 [a | e |]].
Qed.

(** A query consumes its entry of the fault script and nothing else. *)
Lemma query_world {A} (q : World -> A) (w : World) :
  fst (db_call (fun w0 => (w0, Resolved (q w0))) w) =
  set_faults (tl (faults w)) w.
Proof. destruct w as [ss ms n t fs]. now destruct fs as [|[e|] fs]. Qed.

Lemma scripted_query {A} (sessionId : string) (q : World -> A) :
  scripted sessionId (db_call (fun w0 => (w0, Resolved (q w0)))).
Proof.
  intros w. exists [Pop (tl (faults w))].
  split; [all_fit | apply query_world].
Qed.

Lemma fetch_title_world (sessionId : string) (w : World) :
  fst (fetch_title sessionId w) = set_faults (tl (faults w)) w.
Proof. destruct w as [ss ms n t fs]. now destruct fs as [|[e|] fs]. Qed.

Lemma scripted_fetch_title (sessionId : string) :
  scripted sessionId (fetch_title sessionId).
Proof.
  intros w. exists [Pop (tl (faults w))].
  split; [all_fit | apply fetch_title_world].
Qed.

Lemma scripted_saveMessage (sessionId role content : string) (b : bool) :
  stored_ok role content -> content <> "" ->
  scripted sessionId (saveMessage sessionId role content b).
Proof.
  intros Hok Hne w. rewrite saveMessage_run.
  exists (match fault_at 0 w with
          | Some _ => [Pop (tl (faults w))]
          | None =>
              [if b then FirstMessage sessionId content else Touch sessionId]
              ++ (match fault_at 1 w with
                  | None => [InsertMessage sessionId role content]
                  | Some _ => []
                  end)
              ++ [Pop (skipn 2 (faults w))]
          end).
  split.
  - destruct (fault_at 0 w), (fault_at 1 w), b; all_fit.
  - destruct (fault_at 0 w); [reflexivity|]. rewrite !play_app.
    destruct (fault_at 1 w), b; reflexivity.
Qed.

(** The assistant's text is stored as it comes, empty or not. *)
Lemma scripted_saveMessage_later (sessionId role content : string) :
  stored_ok role content ->
  scripted sessionId (saveMessage sessionId role content false).
Proof.
  intros Hok w. rewrite saveMessage_run.
  exists (match fault_at 0 w with
          | Some _ => [Pop (tl (faults w))]
          | None =>
              [Touch sessionId]
              ++ (match fault_at 1 w with
                  | None => [InsertMessage sessionId role content]
                  | Some _ => []
                  end)
              ++ [Pop (skipn 2 (faults w))]
          end).
  split.
  - destruct (fault_at 0 w), (fault_at 1 w); all_fit.
  - destruct (fault_at 0 w); [reflexivity|]. rewrite !play_app.
    destruct (fault_at 1 w); reflexivity.
Qed.

(** The two statements of [deleteChatSession], as those of [saveMessage]:
    a fault in the first takes the process down with nothing deleted;
    otherwise the messages go, and the session row goes unless the second
    statement fails, which settles the promise. *)
Lemma deleteChatSession_run (sessionId : string) (w : World) :
  deleteChatSession sessionId w =
  match fault_at 0 w with
  | Some _ => (set_faults (tl (faults w)) w, Exited)
  | None =>
      (set_faults (skipn 2 (faults w))
         (unless_fault (fault_at 1 w) (sql_delete_session sessionId)
            (sql_delete_messages sessionId w)),
       match fault_at 1 w with
       | None => Resolved tt
       | Some e => Rejected e
       end)
  end.
Proof.
  destruct w as [ss ms n t fs].
  destruct fs as [|[e1|] [|[e2|] fs]]; reflexivity.
Qed.

Lemma scripted_deleteChatSession (sessionId : string) :
  scripted sessionId (deleteChatSession sessionId).
Proof.
  intros w. rewrite deleteChatSession_run.
  exists (match fault_at 0 w with
          | Some _ => [Pop (tl (faults w))]
          | None =>
              [DeleteMessages sessionId]
              ++ (match fault_at 1 w with
                  | None => [DeleteSession sessionId]
                  | Some _ => []
                  end)
              ++ [Pop (skipn 2 (faults w))]
          end).
  split.
  - destruct (fault_at 0 w), (fault_at 1 w); all_fit.
  - destruct (fault_at 0 w); [reflexivity|]. rewrite !play_app.
    destruct (fault_at 1 w); reflexivity.
Qed.

Lemma createNewChatSession_run (uuid : string) (w : World) :
  createNewChatSession uuid w =
  match fault_at 0 w with
  | Some e => (set_faults (tl (faults w)) w, Rejected e)
  | None =>
      if has_session uuid w
      then (set_faults (tl (faults w)) w,
            Rejected "SQLITE_CONSTRAINT: UNIQUE constraint failed: chat_sessions.id")
      else (set_faults (tl (faults w))
              (set_chat_sessions
                 (chat_sessions w
                  ++ [Session.mk uuid "New Chat" (clock w) (clock w)]) w),
            Resolved uuid)
  end.
Proof.
  destruct w as [ss ms n t fs].
  unfold createNewChatSession, bind, db_call, next_fault, sql_insert_session,
    has_session, fault_at.
  destruct fs as [|[e|] fs]; simpl; try reflexivity;
    now destruct (existsb (fun r => String.eqb (Session.id r) uuid) ss).
Qed.

Lemma scripted_createNewChatSession (uuid : string) :
  scripted uuid (createNewChatSession uuid).
Proof.
  intros w. rewrite createNewChatSession_run.
  exists ((match fault_at 0 w with
           | None => [NewSession uuid]
           | Some _ => []
           end) ++ [Pop (tl (faults w))]).
  split.
  - destruct (fault_at 0 w); all_fit.
  - rewrite play_app. destruct (fault_at 0 w); [reflexivity|].
    simpl. unfold sql_insert_session. now destruct (has_session uuid w).
Qed.

Lemma scripted_post_message_request (sessionId : string)
                                    (message : option string) :
  scripted sessionId (post_message_request sessionId message).
Proof.
  intros w. unfold post_message_request.
  destruct message as [[|c text]|];
    try (exists []; split; [constructor | reflexivity]).
  match goal with
  | |- context [match ?block w with _ => _ end] =>
      assert (H : scripted sessionId block)
  end.
  { apply scripted_bind; [apply scripted_query|]. intros existingMessages.
    apply scripted_bind;
      [apply scripted_saveMessage; [left; split; [reflexivity|] |];
       discriminate|].
    intros _. apply scripted_bind; [apply scripted_query|].
    intros history. apply scripted_ret. }
  destruct (H w) as (l & Hl & E). exists l. split; [exact Hl|].
  rewrite <- E.
  match goal with
  | |- context [match ?block w with _ => _ end] =>
      now destruct (block w) as [w1 [msgs | e |]]
  end.
Qed.

Lemma scripted_post_message_resume (sessionId : string) (c : completion) :
  scripted sessionId (post_message_resume sessionId c).
Proof.
  destruct c as [aiResponse tokensUsed | message]; simpl.
  - apply scripted_try_catch, scripted_saveMessage_later. now right.
  - intros w. exists []. split; [constructor | reflexivity].
Qed.

Lemma scripted_post_message (groq : list Chat.msg -> completion)
                            (latency : nat) (sessionId : string)
                            (message : option string) :
  scripted sessionId (post_message groq latency sessionId message).
Proof.
  intros w. unfold post_message.
  destruct (scripted_post_message_request sessionId message w)
    as (l1 & Hl1 & E1).
  destruct (post_message_request sessionId message w) as [w1 [r | msgs]];
    simpl in E1; subst w1; [now exists l1|].
  destruct (scripted_post_message_resume sessionId (groq msgs)
              (tick latency (play l1 w))) as (l2 & Hl2 & E2).
  exists (l1 ++ [Wait latency] ++ l2). split.
  - apply Forall_app. split; [exact Hl1|]. constructor; [fits | exact Hl2].
  - now rewrite E2, !play_app.
Qed.

Lemma scripted_setHeader (sessionId name value : string) :
  scripted sessionId (setHeader name value).
Proof.
  intros w. exists []. split; [constructor|]. unfold setHeader.
  now destruct (header_value_ok value).
Qed.

Lemma scripted_get_export (localeString sessionId : string) :
  scripted sessionId (get_export localeString sessionId).
Proof.
  apply scripted_try_catch.
  apply scripted_bind; [apply scripted_query|]. intros msgs.
  apply scripted_bind; [apply scripted_fetch_title|]. intros session.
  apply scripted_bind; [apply scripted_setHeader|]. intros _.
  apply scripted_bind; [apply scripted_setHeader|]. intros _.
  apply scripted_ret.
Qed.

Lemma on_session_proper (sessionId : string) (l : list action) :
  Forall (on_session sessionId) l -> Forall proper l.
Proof. apply Forall_impl. now intros a [H _]. Qed.

(** Every request comes down to proper actions. *)
Lemma serve_proper (r : request) (w : World) :
  exists l, Forall proper l /\ serve w r = play l w.
Proof.
  assert (lift : forall X s (m : World -> World * X),
             scripted s m ->
             exists l, Forall proper l /\ fst (m w) = play l w).
  { intros X s m H. destruct (H w) as (l & Hl & E).
    exists l. split; [now apply on_session_proper with s | exact E]. }
  destruct r as [| s | uuid | groq latency s message | s message | s c | s
                 | loc s | dt | fs]; simpl.
  - apply lift with (s := ""). apply scripted_try_catch, scripted_query.
  - apply lift with (s := s). apply scripted_try_catch, scripted_query.
  - apply lift with (s := uuid).
    apply scripted_try_catch, scripted_createNewChatSession.
  - apply lift with (s := s). apply scripted_post_message.
  - apply lift with (s := s). apply scripted_post_message_request.
  - apply lift with (s := s). apply scripted_post_message_resume.
  - apply lift with (s := s).
    apply scripted_try_catch, scripted_deleteChatSession.
  - apply lift with (s := s). apply scripted_get_export.
  - exists [Wait dt]. split; [repeat constructor | reflexivity].
  - exists [Pop fs]. split; [repeat constructor | reflexivity].
Qed.

Lemma serve_all_proper (rs : list request) (w : World) :
  exists l, Forall proper l /\ serve_all rs w = play l w.
Proof.
  revert w. induction rs as [|r rs IH]; intros w.
  - exists []. split; [constructor | reflexivity].
  - destruct (serve_proper r w) as (l1 & Hl1 & E1).
    destruct (IH (serve w r)) as (l2 & Hl2 & E2).
    exists (l1 ++ l2). split; [now apply Forall_app|].
    rewrite play_app, <- E1. exact E2.
Qed.

(** ** Invariants *)

Lemma play_invariant (P : World -> Prop) :
  (forall a w, proper a -> P w -> P (act w a)) ->
  forall l w, Forall proper l -> P w -> P (play l w).
Proof.
  intros Hact l. induction l as [|a l IH]; intros w Hl Hw; [exact Hw|].
  inversion Hl; subst. simpl. apply IH; [assumption|]. now apply Hact.
Qed.

Lemma reached_invariant (P : World -> Prop) :
  (forall a w, proper a -> P w -> P (act w a)) ->
  P fresh -> forall rs, P (serve_all rs fresh).
Proof.
  intros Hact Hfresh rs.
  destruct (serve_all_proper rs fresh) as (l & Hl & ->).
  now apply play_invariant.
Qed.

Lemma Forall_filter_keep {A} (P : A -> Prop) (f : A -> bool) (l : list A) :
  Forall P l -> Forall P (filter f l).
Proof.
  rewrite !Forall_forall. intros H x Hx. apply filter_In in Hx. now apply H.
Qed.

Lemma NoDup_map_filter {A B} (g : A -> B) (f : A -> bool) (l : list A) :
  NoDup (map g l) -> NoDup (map g (filter f l)).
Proof.
  induction l as [|a l IH]; simpl; intros H; [constructor|].
  inversion H as [|? ? Hnotin Hnodup]; subst.
  destruct (f a); simpl; [|now apply IH].
  constructor; [|now apply IH].
  intros Hin. apply Hnotin. apply in_map_iff in Hin as (x & Hx & Hin).
  apply filter_In in Hin as [Hin _]. rewrite <- Hx. now apply in_map.
Qed.

Lemma touch_ids (sessionId : string) (w : World) :
  session_ids (sql_update_updated_at sessionId w) = session_ids w.
Proof.
  unfold session_ids. simpl. rewrite map_map. apply map_ext. intros r.
  now destruct (String.eqb (Session.id r) sessionId).
Qed.

Lemma has_session_In (sessionId : string) (w : World) :
  has_session sessionId w = true <-> In sessionId (session_ids w).
Proof.
  unfold has_session, session_ids. rewrite existsb_exists, in_map_iff.
  split; intros (r & H1 & H2); exists r.
  - apply String.eqb_eq in H2. now split.
  - split; [assumption|]. now apply String.eqb_eq.
Qed.

Lemma unique_ids_act (a : action) (w : World) :
  unique_ids w -> unique_ids (act w a).
Proof.
  unfold unique_ids. intros H.
  destruct a as [fs | dt | s c | s | s r c | s | s | s]; simpl;
    try exact H.
  - unfold session_ids. simpl. rewrite map_app. apply NoDup_app.
    + now apply NoDup_map_filter.
    + repeat constructor. intros [].
    + intros x Hx Hs. simpl in Hs. destruct Hs as [E | []]. subst x.
      apply in_map_iff in Hx as (r & Hr & Hin).
      apply filter_In in Hin as [_ Hne].
      rewrite Hr, String.eqb_refl in Hne. discriminate.
  - now rewrite touch_ids.
  - unfold sql_insert_session. destruct (has_session s w) eqn:E; [exact H|].
    unfold session_ids. simpl. rewrite map_app. apply NoDup_app.
    + exact H.
    + repeat constructor. intros [].
    + intros x Hx Hs. simpl in Hs. destruct Hs as [Ex | []]. subst x.
      apply has_session_In in Hx. congruence.
  - now apply NoDup_map_filter.
Qed.

Lemma session_times_act (a : action) (w : World) :
  session_times w -> session_times (act w a).
Proof.
  unfold session_times. intros H.
  destruct a as [fs | dt | s c | s | s r c | s | s | s]; simpl;
    try exact H.
  - eapply Forall_impl; [|exact H]. simpl. intros r [H1 H2]. lia.
  - apply Forall_app. split; [now apply Forall_filter_keep|].
    repeat constructor.
  - apply Forall_map. eapply Forall_impl; [|exact H]. simpl.
    intros r [H1 H2].
    destruct (String.eqb (Session.id r) s); simpl; lia.
  - unfold sql_insert_session. destruct (has_session s w); [exact H|]. simpl.
    apply Forall_app. split; [exact H|]. repeat constructor.
  - now apply Forall_filter_keep.
Qed.

Lemma message_ids_act (a : action) (w : World) :
  message_ids w -> message_ids (act w a).
Proof.
  unfold message_ids. intros [Hs Hb].
  destruct a as [fs | dt | s c | s | s r c | s | s | s]; simpl;
    try (split; assumption).
  - split.
    + apply sorted_snoc; [assumption|].
      eapply Forall_impl; [|exact Hb]. simpl. intros m Hm. lia.
    + apply Forall_app. split.
      * eapply Forall_impl; [|exact Hb]. simpl. intros m Hm. lia.
      * constructor; [simpl; lia | constructor].
  - unfold sql_insert_session. destruct (has_session s w); now split.
  - split; [now apply sorted_filter | now apply Forall_filter_keep].
Qed.

Lemma chronological_act (a : action) (w : World) :
  chronological w -> chronological (act w a).
Proof.
  intros H.
  destruct a as [fs | dt | s c | s | s r c | s | s | s]; simpl;
    try exact H.
  - revert H. apply chronological_same; simpl; [reflexivity | lia].
  - now apply chronological_insert.
  - unfold sql_insert_session. destruct (has_session s w); exact H.
  - destruct H as [Hs Hc]. split; simpl;
      [now apply sorted_filter | now apply Forall_filter_keep].
Qed.

Lemma stored_roles_act (a : action) (w : World) :
  proper a -> stored_roles w -> stored_roles (act w a).
Proof.
  unfold stored_roles. intros Ha H.
  destruct a as [fs | dt | s c | s | s r c | s | s | s]; simpl;
    try exact H.
  - apply Forall_app. split; [exact H|].
    constructor; [exact Ha | constructor].
  - unfold sql_insert_session. destruct (has_session s w); exact H.
  - now apply Forall_filter_keep.
Qed.

Lemma js_length_append (a b : string) :
  js_length (String.append a b) = js_length a + js_length b.
Proof.
  induction a as [|c a IH]; simpl; [reflexivity|]. rewrite IH. lia.
Qed.

(** The cut never holds more code units than asked for. *)
Lemma js_length_substring_0 (n : nat) (s : string) :
  js_length (js_substring_0 n s) <= n.
Proof.
  revert n. induction s as [|b s IH]; intros n; simpl; [lia|].
  destruct (is_continuation b) eqn:C; simpl.
  - unfold unit_count. rewrite C. apply IH.
  - destruct (Nat.leb_spec (unit_count b) n) as [Hfit | Hcut]; simpl.
    + specialize (IH (n - unit_count b)). lia.
    + destruct n as [|n]; simpl; [lia|].
      unfold unit_count. simpl. lia.
Qed.

(** The derived title is never empty and never longer than 33 units. *)
Lemma derived_title_bounds (content : string) :
  content <> "" ->
  derived_title content <> "" /\ js_length (derived_title content) <= 33.
Proof.
  intros Hne. unfold derived_title.
  destruct (Nat.leb_spec (js_length content) 30) as [H | H].
  - split; [exact Hne | lia].
  - split.
    + destruct (js_substring_0 30 content); discriminate.
    + rewrite js_length_append.
      pose proof (js_length_substring_0 30 content). simpl. lia.
Qed.

Lemma titles_bounded_act (a : action) (w : World) :
  proper a -> titles_bounded w -> titles_bounded (act w a).
Proof.
  unfold titles_bounded. intros Ha H.
  destruct a as [fs | dt | s c | s | s r c | s | s | s]; simpl;
    try exact H.
  - apply Forall_app. split; [now apply Forall_filter_keep|].
    constructor; [|constructor]. simpl. rewrite derived_title_eq.
    now apply derived_title_bounds.
  - apply Forall_map. eapply Forall_impl; [|exact H]. simpl. intros r Hr.
    now destruct (String.eqb (Session.id r) s).
  - unfold sql_insert_session. destruct (has_session s w); [exact H|]. simpl.
    apply Forall_app. split; [exact H|].
    constructor; [simpl; split; [discriminate | lia] | constructor].
  - now apply Forall_filter_keep.
Qed.

(** X3.  Whatever requests are served, with whatever faults and however
    interleaved, no two session rows share an id. *)
Theorem session_ids_stay_unique (rs : list request) :
  unique_ids (serve_all rs fresh).
Proof.
  apply reached_invariant; [|constructor].
  intros a w _. apply unique_ids_act.
Qed.

(** X4.  Whatever requests are served, every session row has
    [created_at <= updated_at], and no [updated_at] lies in the future. *)
Theorem session_times_stay_ordered (rs : list request) :
  session_times (serve_all rs fresh).
Proof.
  apply reached_invariant; [|constructor].
  intros a w _. apply session_times_act.
Qed.

Lemma never_reissued_refl (w : World) : never_reissued w w.
Proof. split; [lia | auto]. Qed.

Lemma never_reissued_trans (w1 w2 w3 : World) :
  never_reissued w1 w2 -> never_reissued w2 w3 -> never_reissued w1 w3.
Proof.
  intros [H1 H2] [H3 H4]. split; [lia|]. intros m Hm Hid.
  apply H2; [|exact Hid]. apply H4; [exact Hm | lia].
Qed.

Lemma never_reissued_same (w w' : World) :
  messages w' = messages w -> sqlite_sequence w' = sqlite_sequence w ->
  never_reissued w w'.
Proof. intros Hm Hs. unfold never_reissued. rewrite Hm, Hs. auto. Qed.

Lemma never_reissued_act (a : action) (w : World) :
  never_reissued w (act w a).
Proof.
  destruct a as [fs | dt | s c | s | s r c | s | s | s];
    try (apply never_reissued_same; reflexivity).
  - split; simpl; [lia|]. intros m Hm Hid.
    apply in_app_or in Hm as [Hm | [<- | []]]; [exact Hm|].
    simpl in Hid. lia.
  - simpl. unfold sql_insert_session.
    destruct (has_session s w); apply never_reissued_same; reflexivity.
  - split; simpl; [lia|]. intros m Hm _. now apply filter_In in Hm.
Qed.

Lemma never_reissued_play (l : list action) (w : World) :
  never_reissued w (play l w).
Proof.
  revert w. induction l as [|a l IH]; intros w;
    [apply never_reissued_refl|].
  simpl. eapply never_reissued_trans; [apply never_reissued_act | apply IH].
Qed.

(** X5.  Whatever requests are served, message ids grow strictly along the
    table and stay between 1 and the sequence counter; and whatever
    requests are served after that, the counter does not fall and every row
    with an id within the earlier counter is a row that was there then: no
    id is handed out twice, not even after the rows that held it were
    deleted. *)
Theorem message_ids_stay_increasing (rs later : list request) :
  message_ids (serve_all rs fresh)
  /\ never_reissued (serve_all rs fresh) (serve_all (rs ++ later) fresh).
Proof.
  split.
  - apply reached_invariant; [|split; constructor].
    intros a w _. apply message_ids_act.
  - assert (E : serve_all (rs ++ later) fresh =
                 serve_all later (serve_all rs fresh))
      by apply fold_left_app.
    rewrite E.
    destruct (serve_all_proper later (serve_all rs fresh)) as (l & _ & ->).
    apply never_reissued_play.
Qed.

(** For one: a turn stores ids 1 and 2, the chat is deleted, and the next
    turn stores ids 3 and 4. *)
Lemma ids_after_deletion :
  map Message.id
      (messages
         (serve_all [PostMessage (canned (Completion "yo" 7)) 1 "s"
                                 (Some "hi")] fresh)) = [1; 2]
  /\ map Message.id
       (messages
          (serve_all [PostMessage (canned (Completion "yo" 7)) 1 "s"
                                  (Some "hi");
                      DeleteChat "s";
                      PostMessage (canned (Completion "yo" 7)) 1 "s"
                                  (Some "hi")] fresh)) = [3; 4].
Proof. split; reflexivity. Qed.

(** X6.  Whatever requests are served, the timestamps of [messages] do not
    decrease along the rowids and none lies in the future. *)
Theorem messages_stay_chronological (rs : list request) :
  chronological (serve_all rs fresh).
Proof.
  apply reached_invariant; [|exact chronological_fresh].
  intros a w _. apply chronological_act.
Qed.

(** X7.  Whatever requests are served, every stored message has role
    "user", with a content that is not empty, or role "assistant": the
    system message is never stored. *)
Theorem only_user_and_assistant_stored (rs : list request) :
  stored_roles (serve_all rs fresh).
Proof. apply reached_invariant; [apply stored_roles_act | constructor]. Qed.

(** X8.  Whatever requests are served, every session title is non-empty
    and has at most 33 UTF-16 code units. *)
Theorem titles_stay_bounded (rs : list request) :
  titles_bounded (serve_all rs fresh).
Proof. apply reached_invariant; [apply titles_bounded_act | constructor]. Qed.

Lemma forallb_order_by {A} (before : A -> A -> bool) (f : A -> bool)
                       (l : list A) :
  forallb f l = true -> forallb f (order_by before l) = true.
Proof.
  rewrite !forallb_forall. intros H x Hx. apply H.
  now apply order_by_In in Hx.
Qed.

Lemma stored_roles_not_system (sessionId : string) (w : World) :
  stored_roles w ->
  forallb (fun m => negb (is_system m)) (select_history sessionId w) = true.
Proof.
  intros H. apply forallb_forall. intros m Hm.
  apply in_map_iff in Hm as (row & <- & Hrow).
  apply order_by_In in Hrow. apply filter_In in Hrow as [Hrow _].
  unfold stored_roles in H. rewrite Forall_forall in H.
  unfold is_system. simpl.
  destruct (H row Hrow) as [[-> _] | ->]; reflexivity.
Qed.

(** X9.  Whatever requests were served, the list made for the completion
    API from a stored history holds one message of role "system", the
    instruction at its head. *)
Theorem one_system_message_sent (rs : list request) (sessionId : string) :
  filter is_system (window (select_history sessionId (serve_all rs fresh))) =
  [system_message]
  /\ hd_error (window (select_history sessionId (serve_all rs fresh))) =
     Some system_message.
Proof.
  rewrite window_eq. split; [|reflexivity]. simpl. f_equal.
  apply filter_none, forallb_skipn, stored_roles_not_system.
  apply reached_invariant; [apply stored_roles_act | constructor].
Qed.

(** ** Sessions do not disturb each other *)

Lemma untouched_refl (other : string) (w : World) : untouched other w w.
Proof. split; reflexivity. Qed.

Lemma untouched_trans (other : string) (w1 w2 w3 : World) :
  untouched other w1 w2 -> untouched other w2 w3 -> untouched other w1 w3.
Proof. intros [H1 H2] [H3 H4]. split; congruence. Qed.

Lemma filter_filter_implied {A} (f g : A -> bool) (l : list A) :
  (forall x, f x = true -> g x = true) ->
  filter f (filter g l) = filter f l.
Proof.
  intros H. induction l as [|a l IH]; simpl; [reflexivity|].
  destruct (g a) eqn:G; simpl; [now rewrite IH|].
  destruct (f a) eqn:F; [|exact IH]. apply H in F. congruence.
Qed.

Lemma other_is_kept (other sessionId : string) :
  other <> sessionId ->
  forall x, String.eqb x other = true ->
            negb (String.eqb x sessionId) = true.
Proof.
  intros Hne x Hx. apply String.eqb_eq in Hx. subst x.
  apply negb_true_iff. now apply String.eqb_neq.
Qed.

Lemma untouched_tables (other : string) (w w' : World) :
  filter (fun m => String.eqb (Message.session_id m) other) (messages w') =
  filter (fun m => String.eqb (Message.session_id m) other) (messages w) ->
  filter (fun r => String.eqb (Session.id r) other) (chat_sessions w') =
  filter (fun r => String.eqb (Session.id r) other) (chat_sessions w) ->
  untouched other w w'.
Proof. intros Hm Hs. split; [|exact Hs]. unfold select_history. now rewrite Hm. Qed.

Lemma filter_touch (other sessionId : string) (t : Time)
                   (l : list Session.row) :
  other <> sessionId ->
  filter (fun r => String.eqb (Session.id r) other)
    (map (fun r =>
            if String.eqb (Session.id r) sessionId
            then Session.mk (Session.id r) (Session.title r)
                            (Session.created_at r) t
            else r) l) =
  filter (fun r => String.eqb (Session.id r) other) l.
Proof.
  intros Hne. induction l as [|r l IH]; simpl; [reflexivity|].
  destruct (String.eqb (Session.id r) sessionId) eqn:E; simpl.
  - apply String.eqb_eq in E. rewrite E.
    assert (String.eqb sessionId other = false) as ->
      by (apply String.eqb_neq; congruence).
    exact IH.
  - now rewrite IH.
Qed.

Lemma untouched_act (other sessionId : string) (a : action) (w : World) :
  other <> sessionId ->
  target a = None \/ target a = Some sessionId ->
  untouched other w (act w a).
Proof.
  intros Hne Ht.
  assert (Hoff : String.eqb sessionId other = false)
    by (apply String.eqb_neq; congruence).
  destruct a as [fs | dt | s c | s | s r c | s | s | s]; simpl in Ht.
  1, 2: apply untouched_tables; reflexivity.
  all: destruct Ht as [Ht | Ht]; [discriminate Ht|];
    injection Ht as ->; apply untouched_tables; simpl; try reflexivity.
  - rewrite filter_app. simpl. rewrite Hoff, app_nil_r.
    apply filter_filter_implied. intros r.
    apply (other_is_kept Hne (Session.id r)).
  - now apply filter_touch.
  - rewrite filter_app. simpl. now rewrite Hoff, app_nil_r.
  - unfold sql_insert_session. now destruct (has_session sessionId w).
  - unfold sql_insert_session.
    destruct (has_session sessionId w); [reflexivity|]. simpl.
    rewrite filter_app. simpl. now rewrite Hoff, app_nil_r.
  - apply filter_filter_implied. intros m.
    apply (other_is_kept Hne (Message.session_id m)).
  - apply filter_filter_implied. intros r.
    apply (other_is_kept Hne (Session.id r)).
Qed.

Lemma untouched_play (other sessionId : string) (l : list action)
                     (w : World) :
  other <> sessionId -> Forall (on_session sessionId) l ->
  untouched other w (play l w).
Proof.
  intros Hne. revert w.
  induction l as [|a l IH]; intros w Hl; [apply untouched_refl|].
  inversion Hl as [|? ? [_ Ha] Hl']; subst. simpl.
  eapply untouched_trans; [|now apply IH].
  now apply untouched_act with sessionId.
Qed.

Lemma untouched_scripted {X} (other sessionId : string)
                         (m : World -> World * X) (w : World) :
  other <> sessionId -> scripted sessionId m ->
  untouched other w (fst (m w)).
Proof.
  intros Hne H. destruct (H w) as (l & Hl & ->).
  now apply untouched_play with sessionId.
Qed.

Lemma untouched_saveMessage (other sessionId role content : string)
                            (b : bool) (w : World) :
  other <> sessionId ->
  untouched other w (fst (saveMessage sessionId role content b w)).
Proof.
  intros Hne. rewrite saveMessage_run.
  destruct (fault_at 0 w); simpl.
  - exact (@untouched_act other sessionId (Pop (tl (faults w))) w Hne
             (or_introl eq_refl)).
  - set (w1 := session_write sessionId content b w).
    set (w2 := unless_fault (fault_at 1 w)
                 (sql_insert_message sessionId role content) w1).
    apply untouched_trans with w1; [|apply untouched_trans with w2].
    + unfold w1. destruct b.
      * exact (@untouched_act other sessionId
                 (FirstMessage sessionId content) w Hne (or_intror eq_refl)).
      * exact (@untouched_act other sessionId (Touch sessionId)
                 w Hne (or_intror eq_refl)).
    + unfold w2. destruct (fault_at 1 w); simpl; [apply untouched_refl|].
      exact (@untouched_act other sessionId
               (InsertMessage sessionId role content) w1 Hne
               (or_intror eq_refl)).
    + exact (@untouched_act other sessionId (Pop (skipn 2 (faults w))) w2
               Hne (or_introl eq_refl)).
Qed.

(** X10.  A chat turn, a deletion and a creation addressed to one session
    id leave every other session as it was, its row and its history, under
    any faults and whatever the completion API answers; so do the store
    functions [saveMessage] and [deleteChatSession] themselves. *)
Theorem other_sessions_untouched
  (other sessionId : string) (groq : list Chat.msg -> completion)
  (latency : nat) (message : option string) (role content : string)
  (isFirstMessage : bool) (w : World) :
  other <> sessionId ->
  untouched other w (fst (post_message groq latency sessionId message w))
  /\ untouched other w (fst (delete_chat sessionId w))
  /\ untouched other w (fst (post_new sessionId w))
  /\ untouched other w
       (fst (saveMessage sessionId role content isFirstMessage w))
  /\ untouched other w (fst (deleteChatSession sessionId w)).
Proof.
  intros Hne.
  split; [|split; [|split; [|split]]].
  - apply (untouched_scripted (sessionId := sessionId)); [exact Hne|].
    apply scripted_post_message.
  - apply (untouched_scripted (sessionId := sessionId)); [exact Hne|].
    apply scripted_try_catch, scripted_deleteChatSession.
  - apply (untouched_scripted (sessionId := sessionId)); [exact Hne|].
    apply scripted_try_catch, scripted_createNewChatSession.
  - now apply untouched_saveMessage.
  - apply (untouched_scripted (sessionId := sessionId)); [exact Hne|].
    apply scripted_deleteChatSession.
Qed.

Lemma other_sessions_untouched_witness :
  "b" <> "a"
  /\ untouched "b" (run two_sessions fresh)
       (fst (post_message (canned (Completion "yo" 7)) 2 "a" (Some "more")
                          (run two_sessions fresh)))
  /\ untouched "b" (run two_sessions fresh)
       (fst (delete_chat "a" (run two_sessions fresh))).
Proof.
  assert (Hne : "b" <> "a") by discriminate.
  destruct (@other_sessions_untouched "b" "a" (canned (Completion "yo" 7)) 2
              (Some "more") "user" "more" false (run two_sessions fresh) Hne)
    as (H1 & H2 & _).
  repeat split; assumption.
Defined.

(** ** Deleting and creating chats *)

Lemma deleteChatSession_clean (sessionId : string) (w : World) :
  faults w = [] ->
  deleteChatSession sessionId w =
  (sql_delete_session sessionId (sql_delete_messages sessionId w),
   Resolved tt).
Proof. destruct w as [ss ms n t fs]; simpl; intros ->. reflexivity. Qed.

Lemma filter_all {A} (f : A -> bool) (l : list A) :
  (forall x, In x l -> f x = true) -> filter f l = l.
Proof.
  induction l as [|a l IH]; simpl; intros H; [reflexivity|].
  rewrite (H a (or_introl eq_refl)). f_equal. apply IH. auto.
Qed.

Lemma select_history_nil (sessionId : string) (w : World) :
  select_history sessionId w = [] ->
  forall m, In m (messages w) ->
            negb (String.eqb (Message.session_id m) sessionId) = true.
Proof.
  unfold select_history. intros H m Hm.
  destruct (String.eqb (Message.session_id m) sessionId) eqn:E;
    [|reflexivity].
  apply map_eq_nil in H.
  assert (Hin : In m (order_by
                        (fun a b => Nat.leb (Message.timestamp a)
                                            (Message.timestamp b))
                        (filter (fun m => String.eqb (Message.session_id m)
                                                     sessionId)
                                (messages w)))).
  { apply order_by_In. apply filter_In. now split. }
  rewrite H in Hin. destruct Hin.
Qed.

Lemma no_session_rows (sessionId : string) (w : World) :
  has_session sessionId w = false ->
  forall r, In r (chat_sessions w) ->
            negb (String.eqb (Session.id r) sessionId) = true.
Proof.
  unfold has_session. intros H r Hr.
  destruct (String.eqb (Session.id r) sessionId) eqn:E; [|reflexivity].
  assert (existsb (fun r => String.eqb (Session.id r) sessionId)
                  (chat_sessions w) = true)
    by (apply existsb_exists; now exists r).
  congruence.
Qed.

(** X11.  When no statement fails, [DELETE /api/chats/:sessionId] answers
    200 for any id, known or not, and afterwards the id has no history, no
    title and no entry in the list of chats. *)
Theorem deleted_chat_is_gone (sessionId : string) (w : World) :
  faults w = [] ->
  snd (delete_chat sessionId w) =
    json (message_body "Chat deleted successfully")
  /\ select_history sessionId (fst (delete_chat sessionId w)) = []
  /\ select_title sessionId (fst (delete_chat sessionId w)) = None
  /\ ~ In sessionId
         (map Session.id (select_sessions (fst (delete_chat sessionId w)))).
Proof.
  intros Hf. unfold delete_chat, try_catch.
  rewrite deleteChatSession_clean by exact Hf. simpl.
  split; [reflexivity|]. split; [|split].
  - unfold select_history. simpl.
    now rewrite (filter_out_in
                   (fun m => String.eqb (Message.session_id m) sessionId)).
  - unfold select_title. simpl.
    now rewrite (filter_out_in
                   (fun r => String.eqb (Session.id r) sessionId)).
  - intros Hin. apply in_map_iff in Hin as (r & Hr & Hin).
    apply (Permutation_in _ (select_sessions_perm _)) in Hin. simpl in Hin.
    apply filter_In in Hin as [_ Hne].
    rewrite Hr, String.eqb_refl in Hne. discriminate.
Qed.

Lemma deleted_chat_is_gone_witness :
  faults titled_chat = []
  /\ select_history "s" titled_chat = [Chat.mk "user" "Hi"]
  /\ select_history "s" (fst (delete_chat "s" titled_chat)) = []
  /\ select_title "s" (fst (delete_chat "s" titled_chat)) = None.
Proof.
  destruct (@deleted_chat_is_gone "s" titled_chat eq_refl)
    as (_ & H1 & H2 & _).
  repeat split; assumption.
Defined.

(** X12.  Deleting an id that has no session row and no message changes
    nothing and is answered 200 all the same. *)
Theorem delete_of_unknown_chat (sessionId : string) (w : World) :
  faults w = [] -> has_session sessionId w = false ->
  select_history sessionId w = [] ->
  delete_chat sessionId w =
  (w, json (message_body "Chat deleted successfully")).
Proof.
  intros Hf Hs Hh. unfold delete_chat, try_catch.
  rewrite deleteChatSession_clean by exact Hf.
  unfold sql_delete_session, sql_delete_messages, set_chat_sessions. simpl.
  rewrite (filter_all _ _ (select_history_nil _ _ Hh)).
  rewrite (filter_all _ _ (no_session_rows _ _ Hs)).
  destruct w; simpl in *. now subst.
Qed.

Lemma delete_of_unknown_chat_witness :
  faults titled_chat = [] /\ has_session "ghost" titled_chat = false
  /\ select_history "ghost" titled_chat = []
  /\ delete_chat "ghost" titled_chat =
     (titled_chat, json (message_body "Chat deleted successfully")).
Proof.
  split; [reflexivity|]. split; [reflexivity|]. split; [reflexivity|].
  exact (@delete_of_unknown_chat "ghost" titled_chat eq_refl eq_refl eq_refl).
Defined.

(** X13.  When the first [DELETE] of [deleteChatSession] fails, the
    process exits: the route gives no answer, the second [DELETE] does not
    run, and the session row and every message are still there. *)
Theorem delete_exits_when_first_statement_fails
  (sessionId : string) (e : Error) (w : World) :
  fault_at 0 w = Some e ->
  deleteChatSession sessionId w = (set_faults (tl (faults w)) w, Exited)
  /\ snd (delete_chat sessionId w) = no_answer
  /\ db (fst (delete_chat sessionId w)) = db w.
Proof.
  intros H0. unfold delete_chat, try_catch.
  rewrite deleteChatSession_run, H0. repeat split.
Qed.

Lemma delete_exits_when_first_statement_fails_witness :
  fault_at 0 titled_chat_locked = Some "SQLITE_BUSY: database is locked"
  /\ snd (delete_chat "s" titled_chat_locked) = no_answer
  /\ db (fst (delete_chat "s" titled_chat_locked)) =
     ([Session.mk "s" "Hi" 5 5], [Message.mk 1 "s" "user" "Hi" 5], 1).
Proof.
  destruct (@delete_exits_when_first_statement_fails "s"
              "SQLITE_BUSY: database is locked" titled_chat_locked
              eq_refl) as (_ & H1 & H2).
  split; [reflexivity|]. split; [exact H1|]. rewrite H2. reflexivity.
Defined.

(** X14.  When no statement fails and the id is new, [POST /api/chats/new]
    answers 200 with the id and the title "New Chat", and adds one session
    row of that id and title, created and updated now; messages and every
    other row stay as they are. *)
Theorem new_chat_created (uuid : string) (w : World) :
  faults w = [] -> has_session uuid w = false ->
  post_new uuid w =
    (set_chat_sessions
       (chat_sessions w ++ [Session.mk uuid "New Chat" (clock w) (clock w)])
       w,
     json (new_chat_body uuid "New Chat"))
  /\ select_title uuid (fst (post_new uuid w)) = Some "New Chat"
  /\ select_history uuid (fst (post_new uuid w)) = select_history uuid w.
Proof.
  intros Hf Hs.
  assert (E : post_new uuid w =
              (set_chat_sessions
                 (chat_sessions w
                  ++ [Session.mk uuid "New Chat" (clock w) (clock w)]) w,
               json (new_chat_body uuid "New Chat"))).
  { unfold post_new, try_catch. rewrite createNewChatSession_run.
    unfold fault_at. rewrite Hs, Hf. simpl.
    destruct w; simpl in *. now subst. }
  rewrite E. split; [reflexivity|]. split; [|reflexivity].
  unfold select_title. simpl. rewrite filter_app. simpl.
  rewrite String.eqb_refl.
  assert (filter (fun r => String.eqb (Session.id r) uuid) (chat_sessions w)
          = []) as ->; [|reflexivity].
  apply filter_none, forallb_forall. now apply no_session_rows.
Qed.

Lemma new_chat_created_witness :
  faults titled_chat = [] /\ has_session "t" titled_chat = false
  /\ select_title "t" (fst (post_new "t" titled_chat)) = Some "New Chat"
  /\ session_ids (fst (post_new "t" titled_chat)) = ["s"; "t"].
Proof.
  destruct (@new_chat_created "t" titled_chat eq_refl eq_refl)
    as (H1 & H2 & _).
  split; [reflexivity|]. split; [reflexivity|]. split; [exact H2|].
  now rewrite H1.
Defined.

(** X15.  When the generated id is already that of a session row, the
    insert fails on the primary key: [POST /api/chats/new] answers 500 and
    no table changes. *)
Theorem new_chat_id_collision (uuid : string) (w : World) :
  has_session uuid w = true ->
  status (snd (post_new uuid w)) = 500
  /\ body (snd (post_new uuid w)) = error_body "Failed to create chat"
  /\ db (fst (post_new uuid w)) = db w.
Proof.
  intros Hs. unfold post_new, try_catch. rewrite createNewChatSession_run.
  rewrite Hs. destruct (fault_at 0 w); repeat split.
Qed.

Lemma new_chat_id_collision_witness :
  has_session "s" titled_chat = true
  /\ status (snd (post_new "s" titled_chat)) = 500
  /\ db (fst (post_new "s" titled_chat)) = db titled_chat.
Proof.
  destruct (@new_chat_id_collision "s" titled_chat eq_refl) as (H1 & _ & H3).
  repeat split; assumption.
Defined.

(** ** The chat turn, continued *)

Lemma getConversationHistory_run (sessionId : string) (w : World) :
  getConversationHistory sessionId w =
  (set_faults (tl (faults w)) w,
   match fault_at 0 w with
   | Some e => Rejected e
   | None => Resolved (select_history sessionId w)
   end).
Proof. destruct w as [ss ms n t fs]. now destruct fs as [|[e|] fs]. Qed.

(** X16.  When the table is chronological, no statement fails, the text is
    not empty and the completion API answers the windowed history ending
    with the user's text, the turn is answered 200 with that answer, the
    session's history grows by the user's text and the answer, in this
    order, and every row of the session has [updated_at] at the time of the
    answer. *)
Theorem turn_appends_question_and_answer
  (groq : list Chat.msg -> completion) (latency : nat)
  (sessionId text aiResponse : string) (tokensUsed : nat) (w : World) :
  chronological w -> faults w = [] -> text <> "" ->
  groq (window (select_history sessionId w ++ [Chat.mk "user" text])) =
    Completion aiResponse tokensUsed ->
  snd (post_message groq latency sessionId (Some text) w) =
    json (reply_body aiResponse sessionId tokensUsed)
  /\ select_history sessionId
       (fst (post_message groq latency sessionId (Some text) w)) =
     select_history sessionId w
     ++ [Chat.mk "user" text; Chat.mk "assistant" aiResponse]
  /\ Forall (fun r => Session.id r = sessionId ->
                      Session.updated_at r = clock w + latency)
       (chat_sessions
          (fst (post_message groq latency sessionId (Some text) w))).
Proof.
  intros Hc Hf Htext Hgroq. unfold post_message.
  rewrite (@post_message_request_clean sessionId text w Htext Hf). cbv zeta.
  set (first := Nat.eqb (length (select_history sessionId w)) 0).
  set (w1 := sql_insert_message sessionId "user" text
               (session_write sessionId text first w)).
  assert (Hw1 : w1 = step w (Save sessionId "user" text first))
    by (simpl; now rewrite saveMessage_clean by exact Hf).
  assert (H1 : select_history sessionId w1 =
               select_history sessionId w ++ [Chat.mk "user" text]).
  { rewrite Hw1, select_history_step by assumption. simpl.
    now rewrite String.eqb_refl. }
  assert (Hc1 : chronological (tick latency w1)).
  { apply (chronological_step (Tick latency)).
    rewrite Hw1. now apply chronological_step. }
  assert (Hf1 : faults (tick latency w1) = []).
  { change (faults w1 = []). rewrite Hw1. now apply faults_step. }
  rewrite H1, Hgroq. simpl. unfold try_catch.
  rewrite saveMessage_clean by exact Hf1. simpl.
  split; [reflexivity|]. split.
  - pose proof (@select_history_step sessionId (tick latency w1)
                  (Save sessionId "assistant" aiResponse false) Hc1 Hf1)
      as H2.
    simpl in H2. rewrite saveMessage_clean in H2 by exact Hf1.
    simpl in H2. rewrite String.eqb_refl in H2.
    change (select_history sessionId (tick latency w1))
      with (select_history sessionId w1) in H2.
    rewrite H1, <- app_assoc in H2. exact H2.
  - apply Forall_map, Forall_forall. intros r _.
    destruct (String.eqb (Session.id r) sessionId) eqn:E; simpl.
    + intros _. unfold w1. simpl.
      now destruct (session_write_messages sessionId text first w)
        as (_ & -> & _).
    + intros Hid. apply String.eqb_neq in E. contradiction.
Qed.

Lemma turn_appends_question_and_answer_witness :
  chronological titled_chat /\ faults titled_chat = [] /\ "more" <> ""
  /\ snd (post_message (canned (Completion "yo" 7)) 2 "s" (Some "more")
                       titled_chat) =
     json (reply_body "yo" "s" 7)
  /\ select_history "s"
       (fst (post_message (canned (Completion "yo" 7)) 2 "s" (Some "more")
                          titled_chat)) =
     [Chat.mk "user" "Hi"; Chat.mk "user" "more"; Chat.mk "assistant" "yo"].
Proof.
  assert (Hc : chronological titled_chat).
  { split; repeat constructor. }
  assert (Ht : "more" <> "") by discriminate.
  destruct (@turn_appends_question_and_answer
              (canned (Completion "yo" 7)) 2 "s" "more" "yo" 7 titled_chat
              Hc eq_refl Ht eq_refl) as (H1 & H2 & _).
  split; [exact Hc|]. split; [reflexivity|]. split; [exact Ht|].
  split; [exact H1 | exact H2].
Defined.

Lemma identities_saveMessage_later (sessionId role content : string)
                                   (w : World) :
  identities (fst (saveMessage sessionId role content false w)) =
  identities w.
Proof.
  rewrite saveMessage_run. unfold identities. simpl.
  destruct (fault_at 1 w), (fault_at 0 w); simpl; try reflexivity;
    rewrite map_map; apply map_ext; intros r;
    now destruct (String.eqb (Session.id r) sessionId).
Qed.

Lemma identities_resume (sessionId : string) (c : completion) (w : World) :
  identities (fst (post_message_resume sessionId c w)) = identities w.
Proof.
  destruct c as [aiResponse tokensUsed | message]; simpl; [|reflexivity].
  unfold try_catch.
  pose proof (identities_saveMessage_later sessionId "assistant" aiResponse w)
    as H.
  now destruct (saveMessage sessionId "assistant" aiResponse false w)
    as [w1 [u | e |]].
Qed.

(** X17.  A turn on a session that already has messages leaves the id, the
    title and [created_at] of every session row as they are, whatever the
    message, the completion API and the faults: only a first message
    writes a title. *)
Theorem later_turn_keeps_title_and_creation_time
  (groq : list Chat.msg -> completion) (latency : nat) (sessionId : string)
  (message : option string) (w : World) :
  select_history sessionId w <> [] ->
  identities (fst (post_message groq latency sessionId message w)) =
  identities w.
Proof.
  intros Hh. unfold post_message, post_message_request.
  destruct message as [[|c text]|]; try reflexivity.
  unfold bind. rewrite getConversationHistory_run.
  destruct (fault_at 0 w) as [e|]; [reflexivity|].
  destruct (select_history sessionId w) as [|m0 hist] eqn:Eh;
    [contradiction|]. simpl length. simpl Nat.eqb.
  pose proof (identities_saveMessage_later sessionId "user" (String c text)
                (set_faults (tl (faults w)) w)) as H1.
  destruct (saveMessage sessionId "user" (String c text) false
              (set_faults (tl (faults w)) w)) as [w1 [u | e |]];
    simpl in H1; [|exact H1..].
  rewrite getConversationHistory_run.
  destruct (fault_at 0 w1) as [e|]; [exact H1|].
  simpl. rewrite identities_resume. exact H1.
Qed.

Lemma later_turn_keeps_title_and_creation_time_witness :
  select_history "s" titled_chat <> []
  /\ identities titled_chat = [("s", "Hi", 5)]
  /\ identities
       (fst (post_message (canned (Completion "yo" 7)) 2 "s"
                          (Some "a second and much longer message, to be sure")
                          titled_chat)) = [("s", "Hi", 5)].
Proof.
  assert (Hh : select_history "s" titled_chat <> []) by discriminate.
  split; [exact Hh|]. split; [reflexivity|].
  now rewrite (@later_turn_keeps_title_and_creation_time
                 (canned (Completion "yo" 7)) 2 "s"
                 (Some "a second and much longer message, to be sure")
                 titled_chat Hh).
Defined.

(** ** Classifying errors *)

Lemma prefix_spec (a b : string) :
  prefix a b = true <-> exists post, b = String.append a post.
Proof.
  revert b. induction a as [|c a IH]; intros b; simpl.
  - destruct b; split; intros _; try reflexivity; eexists; reflexivity.
  - destruct b as [|d b]; simpl.
    + split; [discriminate | intros (post & H); discriminate H].
    + destruct (ascii_dec c d) as [-> | Hne].
      * rewrite IH. split; intros (post & H); exists post.
        -- now rewrite H.
        -- now injection H.
      * split; [discriminate|]. intros (post & H). injection H as H1 H2.
        congruence.
Qed.

Lemma includes_unfold (needle hay : string) :
  includes needle hay =
  if prefix needle hay then true
  else match hay with
       | EmptyString => false
       | String _ rest => includes needle rest
       end.
Proof. destruct hay; reflexivity. Qed.

(** [includes] is the substring test. *)
Lemma includes_spec (needle hay : string) :
  includes needle hay = true <-> contains needle hay.
Proof.
  unfold contains. split.
  - induction hay as [|c hay IH]; rewrite includes_unfold;
      destruct (prefix needle _) eqn:P.
    + intros _. apply prefix_spec in P as (post & H).
      exists "", post. exact H.
    + discriminate.
    + intros _. apply prefix_spec in P as (post & H).
      exists "", post. exact H.
    + intros H. destruct (IH H) as (pre & post & E).
      exists (String c pre), post. simpl. now rewrite E.
  - intros (pre & post & E). revert hay E.
    induction pre as [|c pre IH]; intros hay E; rewrite includes_unfold.
    + assert (P : prefix needle hay = true)
        by (apply prefix_spec; now exists post).
      now rewrite P.
    + destruct (prefix needle hay); [reflexivity|].
      simpl in E. subst hay. now apply IH.
Qed.

(** X18.  The [catch] block of the message route answers 429 exactly when
    the error message has "rate limit" or "quota" as a substring, in this
    letter case; every other error, a storage error too, is answered 500
    with "AI service error: " before the message. *)
Theorem error_status_by_substring (message : Error) :
  (status (on_error message) = 429 <->
   contains "rate limit" message \/ contains "quota" message)
  /\ (status (on_error message) = 429
      \/ on_error message =
         mkResponse 500
           (error_body (String.append "AI service error: " message))).
Proof.
  unfold on_error.
  destruct (includes "rate limit" message) eqn:R;
    [|destruct (includes "quota" message) eqn:Q]; simpl.
  - split; [|now left]. split; [|reflexivity].
    intros _. left. now apply includes_spec.
  - split; [|now left]. split; [|reflexivity].
    intros _. right. now apply includes_spec.
  - split; [|now right]. split; [discriminate|].
    intros [H | H]; apply includes_spec in H; congruence.
Qed.

(** ** Export *)

Lemma header_value_ok_app (a b : string) :
  header_value_ok (String.append a b) =
  header_value_ok a && header_value_ok b.
Proof.
  induction a as [|c a IH]; simpl; [reflexivity|].
  now rewrite IH, andb_assoc.
Qed.

(** The header of the export goes through exactly when the id does. *)
Lemma disposition_ok (sessionId : string) :
  header_value_ok
    (String.concat "" ["attachment; filename=chat-"; sessionId; ".txt"]) =
  header_value_ok sessionId.
Proof.
  change (String.concat "" ["attachment; filename=chat-"; sessionId; ".txt"])
    with (String.append "attachment; filename=chat-"
            (String.append sessionId ".txt")).
  rewrite !header_value_ok_app. simpl. now rewrite andb_true_r.
Qed.

Lemma get_export_clean (localeString sessionId : string) (w : World) :
  faults w = [] ->
  get_export localeString sessionId w =
  (w, if header_value_ok sessionId
      then mkResponse 200
             (attachment_body (String.concat "" ["chat-"; sessionId; ".txt"])
                (export_text localeString (select_title sessionId w)
                             (select_history sessionId w)))
      else mkResponse 500 (error_body "Export failed")).
Proof.
  intros Hf. unfold get_export, try_catch, bind.
  rewrite getConversationHistory_clean by exact Hf.
  assert (Et : fetch_title sessionId w =
               (w, Resolved (select_title sessionId w))).
  { unfold fetch_title, db_call, next_fault. now rewrite Hf. }
  rewrite Et. unfold setHeader at 2. rewrite disposition_ok.
  unfold setHeader. simpl header_value_ok. cbv iota.
  now destruct (header_value_ok sessionId).
Qed.

(** X19.  The export of an id that has no session row and no message is
    not an error of its own: with no statement failing it is a 200 with the
    file name of that id and a transcript made of the header alone, titled
    "Untitled", when the id is made of characters a header may carry; when
    it holds a control character or one above U+00FF, [setHeader] throws
    and the answer is 500. *)
Theorem export_of_unknown_chat (localeString sessionId : string)
                               (w : World) :
  faults w = [] -> has_session sessionId w = false ->
  select_history sessionId w = [] ->
  get_export localeString sessionId w =
  (w, if header_value_ok sessionId
      then mkResponse 200
             (attachment_body (String.concat "" ["chat-"; sessionId; ".txt"])
                (String.concat ""
                   ["AI Chat Export"; nl; "Title: Untitled"; nl;
                    "Exported: "; localeString; nl;
                    "========================================"; nl; nl]))
      else mkResponse 500 (error_body "Export failed")).
Proof.
  intros Hf Hs Hh. rewrite get_export_clean by exact Hf.
  rewrite Hh. unfold select_title.
  assert (filter (fun r => String.eqb (Session.id r) sessionId)
                 (chat_sessions w) = []) as ->
    by (apply filter_none, forallb_forall; now apply no_session_rows).
  reflexivity.
Qed.

Lemma export_of_unknown_chat_witness :
  faults titled_chat = [] /\ has_session "ghost" titled_chat = false
  /\ select_history "ghost" titled_chat = []
  /\ has_session nl titled_chat = false /\ select_history nl titled_chat = []
  /\ status (snd (get_export "1/1/2026, 10:00:00 AM" "ghost" titled_chat)) =
     200
  /\ snd (get_export "1/1/2026, 10:00:00 AM" nl titled_chat) =
     mkResponse 500 (error_body "Export failed").
Proof.
  split; [reflexivity|]. split; [reflexivity|]. split; [reflexivity|].
  split; [reflexivity|]. split; [reflexivity|]. split.
  - now rewrite (@export_of_unknown_chat "1/1/2026, 10:00:00 AM" "ghost"
                   titled_chat eq_refl eq_refl eq_refl).
  - now rewrite (@export_of_unknown_chat "1/1/2026, 10:00:00 AM" nl
                   titled_chat eq_refl eq_refl eq_refl).
Defined.

Lemma select_title_In (sessionId t : string) (w : World) :
  select_title sessionId w = Some t ->
  exists r, In r (chat_sessions w) /\ Session.title r = t.
Proof.
  unfold select_title.
  destruct (filter (fun r => String.eqb (Session.id r) sessionId)
                   (chat_sessions w)) as [|r l] eqn:E; [discriminate|].
  intros H. injection H as <-. exists r. split; [|reflexivity].
  assert (Hin : In r (r :: l)) by now left.
  rewrite <- E in Hin. now apply filter_In in Hin.
Qed.

(** X20.  Whatever requests were served before, when no statement fails
    the export of a session that has a row, under an id made of characters
    a header may carry, is headed by the title of that row, never by
    "Untitled", and followed by one entry for each message of the history,
    in order; under any other id the answer is 500. *)
Theorem export_shows_stored_title (rs : list request)
                                  (localeString sessionId t : string) :
  faults (serve_all rs fresh) = [] ->
  select_title sessionId (serve_all rs fresh) = Some t ->
  snd (get_export localeString sessionId (serve_all rs fresh)) =
  if header_value_ok sessionId
  then mkResponse 200
         (attachment_body (String.concat "" ["chat-"; sessionId; ".txt"])
            (String.concat ""
               (["AI Chat Export"; nl; "Title: "; t; nl;
                 "Exported: "; localeString; nl;
                 "========================================"; nl; nl]
                ++ map export_line
                       (select_history sessionId (serve_all rs fresh)))))
  else mkResponse 500 (error_body "Export failed").
Proof.
  intros Hf Ht. rewrite get_export_clean by exact Hf. rewrite Ht.
  destruct (select_title_In _ _ Ht) as (r & Hr & <-).
  assert (Hb : titles_bounded (serve_all rs fresh))
    by (apply reached_invariant;
        [apply titles_bounded_act | constructor]).
  unfold titles_bounded in Hb. rewrite Forall_forall in Hb.
  destruct (Hb r Hr) as [Hne _].
  destruct (Session.title r); [contradiction | reflexivity].
Qed.

Lemma export_shows_stored_title_witness :
  faults (serve_all [PostNew "s"; Elapse 5;
                     PostMessage (canned (Failure "fetch failed")) 0 "s"
                                 (Some "Hi")] fresh) = []
  /\ select_title "s"
       (serve_all [PostNew "s"; Elapse 5;
                   PostMessage (canned (Failure "fetch failed")) 0 "s"
                               (Some "Hi")] fresh) = Some "Hi"
  /\ snd (get_export "now" "s"
            (serve_all [PostNew "s"; Elapse 5;
                        PostMessage (canned (Failure "fetch failed")) 0 "s"
                                    (Some "Hi")] fresh)) =
     mkResponse 200
       (attachment_body "chat-s.txt"
          (String.concat ""
             ["AI Chat Export"; nl; "Title: Hi"; nl; "Exported: now"; nl;
              "========================================"; nl; nl;
              "You: Hi"; nl; nl]))
  /\ select_title nl
       (serve_all [PostMessage (canned (Failure "fetch failed")) 0 nl
                               (Some "Hi")] fresh) = Some "Hi"
  /\ snd (get_export "now" nl
            (serve_all [PostMessage (canned (Failure "fetch failed")) 0 nl
                                    (Some "Hi")] fresh)) =
     mkResponse 500 (error_body "Export failed").
Proof.
  split; [reflexivity|]. split; [reflexivity|]. split; [|split].
  - now rewrite (@export_shows_stored_title
                   [PostNew "s"; Elapse 5;
                    PostMessage (canned (Failure "fetch failed")) 0 "s"
                                (Some "Hi")]
                   "now" "s" "Hi" eq_refl eq_refl).
  - reflexivity.
  - now rewrite (@export_shows_stored_title
                   [PostMessage (canned (Failure "fetch failed")) 0 nl
                                (Some "Hi")]
                   "now" nl "Hi" eq_refl eq_refl).
Defined.

(** ** Reading *)

(** X21.  The three reading routes change no table, no sequence counter
    and no clock, whether their statements fail or not. *)
Theorem reading_routes_write_nothing (localeString sessionId : string)
                                     (w : World) :
  (db (fst (get_chats w)) = db w /\ clock (fst (get_chats w)) = clock w)
  /\ (db (fst (get_chat sessionId w)) = db w
      /\ clock (fst (get_chat sessionId w)) = clock w)
  /\ (db (fst (get_export localeString sessionId w)) = db w
      /\ clock (fst (get_export localeString sessionId w)) = clock w).
Proof.
  assert (Hq : forall A (q : World -> A),
             db (fst (db_call (fun w0 => (w0, Resolved (q w0))) w)) = db w
             /\ clock (fst (db_call (fun w0 => (w0, Resolved (q w0))) w)) =
                clock w)
    by (intros A q; now rewrite query_world).
  split; [|split].
  - unfold get_chats, try_catch, getChatSessions.
    specialize (Hq _ select_sessions).
    now destruct (db_call _ w) as [w1 [a | e |]].
  - unfold get_chat, try_catch, getConversationHistory.
    specialize (Hq _ (select_history sessionId)).
    now destruct (db_call _ w) as [w1 [a | e |]].
  - unfold get_export, try_catch, bind.
    rewrite getConversationHistory_run.
    destruct (fault_at 0 w); [now split|].
    pose proof (fetch_title_world sessionId (set_faults (tl (faults w)) w))
      as Ht.
    destruct (fetch_title sessionId (set_faults (tl (faults w)) w))
      as [w1 [row | e |]]; simpl in Ht; subst w1; try (now split).
    unfold setHeader.
    destruct (header_value_ok "text/plain"); [|now split].
    now destruct (header_value_ok _).
Qed.

(** ** Sending again after a failure *)

Lemma failed_turn (groq : list Chat.msg -> completion) (latency : nat)
                  (sessionId text : string) (w : World) :
  failing groq -> text <> "" -> chronological w -> faults w = [] ->
  let w' := fst (post_message groq latency sessionId (Some text) w) in
  select_history sessionId w' =
    select_history sessionId w ++ [Chat.mk "user" text]
  /\ chronological w' /\ faults w' = [].
Proof.
  intros Hgroq Htext Hc Hf. unfold post_message.
  rewrite (@post_message_request_clean sessionId text w Htext Hf). cbv zeta.
  set (first := Nat.eqb (length (select_history sessionId w)) 0).
  set (w1 := sql_insert_message sessionId "user" text
               (session_write sessionId text first w)).
  assert (Hw1 : w1 = step w (Save sessionId "user" text first))
    by (simpl; now rewrite saveMessage_clean by exact Hf).
  destruct (Hgroq (window (select_history sessionId w1))) as [e ->].
  simpl fst.
  change (select_history sessionId (tick latency w1))
    with (select_history sessionId w1).
  change (faults (tick latency w1)) with (faults w1).
  split; [|split].
  - rewrite Hw1, select_history_step by assumption. simpl.
    now rewrite String.eqb_refl.
  - apply (chronological_step (Tick latency)).
    rewrite Hw1. now apply chronological_step.
  - rewrite Hw1. now apply faults_step.
Qed.

(** X22.  Nothing is taken back when the completion API fails: a turn sent
    again after a failure, and failing again, leaves the user's text twice
    in the history. *)
Theorem resent_turn_is_stored_twice
  (groq : list Chat.msg -> completion) (latency latency' : nat)
  (sessionId text : string) (w : World) :
  failing groq -> text <> "" -> chronological w -> faults w = [] ->
  select_history sessionId
    (fst (post_message groq latency' sessionId (Some text)
            (fst (post_message groq latency sessionId (Some text) w)))) =
  select_history sessionId w ++ [Chat.mk "user" text; Chat.mk "user" text].
Proof.
  intros Hgroq Htext Hc Hf.
  destruct (@failed_turn groq latency sessionId text w Hgroq Htext Hc Hf)
    as (H1 & Hc1 & Hf1).
  destruct (@failed_turn groq latency' sessionId text _ Hgroq Htext Hc1 Hf1)
    as (H2 & _).
  rewrite H2, H1, <- app_assoc. reflexivity.
Qed.

Lemma resent_turn_is_stored_twice_witness :
  failing (canned (Failure "429 rate limit reached"))
  /\ "hello" <> "" /\ chronological new_chat /\ faults new_chat = []
  /\ select_history "s"
       (fst (post_message (canned (Failure "429 rate limit reached")) 3 "s"
               (Some "hello")
               (fst (post_message (canned (Failure "429 rate limit reached"))
                       2 "s" (Some "hello") new_chat)))) =
     [Chat.mk "user" "hello"; Chat.mk "user" "hello"].
Proof.
  assert (Hg : failing (canned (Failure "429 rate limit reached")))
    by (intros msgs; eexists; reflexivity).
  assert (Ht : "hello" <> "") by discriminate.
  assert (Hc : chronological new_chat) by (split; constructor).
  split; [exact Hg|]. split; [exact Ht|]. split; [exact Hc|].
  split; [reflexivity|].
  exact (@resent_turn_is_stored_twice
           (canned (Failure "429 rate limit reached")) 2 3 "s" "hello"
           new_chat Hg Ht Hc eq_refl).
Defined.

(** ** The chat written to last comes first *)

Lemma order_by_head (x : Session.row) (l : list Session.row) :
  In x l ->
  (forall y, In y l ->
             y = x \/ Session.updated_at y < Session.updated_at x) ->
  exists rest,
    order_by (fun a b => Nat.leb (Session.updated_at b) (Session.updated_at a))
             l = x :: rest.
Proof.
  induction l as [|a l IH]; intros Hin Hmax; [destruct Hin|]. simpl.
  assert (Hl : forall y, In y l ->
                 y = x \/ Session.updated_at y < Session.updated_at x)
    by (intros y Hy; apply Hmax; now right).
  destruct (in_dec
              (fun r1 r2 : Session.row =>
                 ltac:(decide equality; try apply string_dec;
                       apply Nat.eq_dec) : {r1 = r2} + {r1 <> r2})
              x l) as [Hxl | Hxl].
  - destruct (IH Hxl Hl) as (rest & ->). simpl.
    destruct (Hmax a (or_introl eq_refl)) as [-> | Hlt].
    + rewrite Nat.leb_refl. now eexists.
    + apply Nat.leb_gt in Hlt. rewrite Hlt. now eexists.
  - destruct Hin as [-> | Hin]; [|contradiction].
    destruct (order_by _ l) as [|y s] eqn:E; simpl; [now eexists|].
    assert (Hy : In y l).
    { apply (order_by_In
               (fun a b => Nat.leb (Session.updated_at b)
                                   (Session.updated_at a))).
      rewrite E. now left. }
    assert (Nat.leb (Session.updated_at y) (Session.updated_at x) = true)
      as ->; [|now eexists].
    apply Nat.leb_le. destruct (Hl y Hy) as [-> | Hlt]; lia.
Qed.

Lemma same_id_same_row (l : list Session.row) (r1 r2 : Session.row) :
  NoDup (map Session.id l) -> In r1 l -> In r2 l ->
  Session.id r1 = Session.id r2 -> r1 = r2.
Proof.
  induction l as [|a l IH]; simpl; intros Hnd H1 H2 Hid; [destruct H1|].
  inversion Hnd as [|? ? Hnotin Hnd']; subst.
  destruct H1 as [-> | H1], H2 as [-> | H2]; auto.
  - exfalso. apply Hnotin. rewrite Hid. now apply in_map.
  - exfalso. apply Hnotin. rewrite <- Hid. now apply in_map.
Qed.

(** X23.  After [saveMessage] on a session that has a row, with no
    statement failing, ids unique and every other session last updated
    before now, the list of chats starts with that session, updated now. *)
Theorem chat_written_to_is_listed_first
  (sessionId role content : string) (isFirstMessage : bool) (w : World) :
  faults w = [] -> unique_ids w -> has_session sessionId w = true ->
  (forall r, In r (chat_sessions w) -> Session.id r <> sessionId ->
             Session.updated_at r < clock w) ->
  exists r rest,
    select_sessions
      (fst (saveMessage sessionId role content isFirstMessage w)) =
      r :: rest
    /\ Session.id r = sessionId /\ Session.updated_at r = clock w.
Proof.
  intros Hf Hu Hs Hold. rewrite saveMessage_clean by exact Hf.
  unfold select_sessions. simpl.
  destruct isFirstMessage; simpl.
  - set (x := Session.mk sessionId
                (if Nat.ltb 30 (js_length content)
                 then String.append (js_substring_0 30 content) "..."
                 else content) (clock w) (clock w)).
    destruct (@order_by_head x
                (filter (fun r => negb (String.eqb (Session.id r) sessionId))
                        (chat_sessions w) ++ [x])) as (rest & E).
    + apply in_or_app. right. now left.
    + intros y Hy. apply in_app_or in Hy as [Hy | [<- | []]]; [|now left].
      right. apply filter_In in Hy as [Hy Hne].
      apply negb_true_iff, String.eqb_neq in Hne. simpl. now apply Hold.
    + exists x, rest. now rewrite E.
  - apply has_session_In in Hs. unfold session_ids in Hs.
    apply in_map_iff in Hs as (r0 & Hid0 & Hr0).
    set (touch := fun r =>
                    if String.eqb (Session.id r) sessionId
                    then Session.mk (Session.id r) (Session.title r)
                                    (Session.created_at r) (clock w)
                    else r).
    assert (Ex : touch r0 =
                 Session.mk sessionId (Session.title r0)
                            (Session.created_at r0) (clock w)).
    { unfold touch. rewrite Hid0, String.eqb_refl. reflexivity. }
    destruct (@order_by_head (touch r0) (map touch (chat_sessions w)))
      as (rest & E).
    + now apply in_map.
    + intros y Hy. apply in_map_iff in Hy as (r1 & <- & Hr1).
      destruct (String.eqb (Session.id r1) sessionId) eqn:E1.
      * left. apply String.eqb_eq in E1. f_equal.
        apply (@same_id_same_row (chat_sessions w) r1 r0 Hu Hr1 Hr0).
        congruence.
      * right. apply String.eqb_neq in E1. rewrite Ex.
        unfold touch at 1.
        assert (String.eqb (Session.id r1) sessionId = false) as ->
          by now apply String.eqb_neq.
        simpl. now apply Hold.
    + exists (touch r0), rest. rewrite E, Ex. repeat split.
Qed.

Lemma chat_written_to_is_listed_first_witness :
  faults two_chats = [] /\ unique_ids two_chats
  /\ has_session "a" two_chats = true
  /\ map Session.id (select_sessions two_chats) = ["b"; "a"]
  /\ hd_error
       (map Session.id
          (select_sessions
             (fst (saveMessage "a" "user" "hi" false two_chats)))) =
     Some "a".
Proof.
  assert (Hu : unique_ids two_chats).
  { repeat constructor; simpl; intuition discriminate. }
  assert (Hold : forall r, In r (chat_sessions two_chats) ->
                   Session.id r <> "a" ->
                   Session.updated_at r < clock two_chats).
  { intros r [<- | [<- | []]] H; simpl in *; [congruence | lia]. }
  destruct (@chat_written_to_is_listed_first "a" "user" "hi" false two_chats
              eq_refl Hu eq_refl Hold) as (r & rest & E & Hid & _).
  split; [reflexivity|]. split; [exact Hu|]. split; [reflexivity|].
  split; [reflexivity|]. rewrite E. simpl. now rewrite Hid.
Defined.
